(* Shallow embedding of the process transport, worker pool, message codec
   and error taxonomy of claude-agent-sdk (crate claude-agent-sdk, Rust). *)

From Stdlib Require Import Bool Arith NArith Lia List String Ascii.
Import ListNotations.
Open Scope string_scope.
#[local] Set Warnings "-register-all".


(* ------------------------------------------------------------------ *)
(** * errors.rs : ErrorCategory, HttpStatus, ClaudeError                *)
(* ------------------------------------------------------------------ *)

Module Errors.

(** [ErrorCategory] *)
Inductive ErrorCategory :=
| Network | Process | Parsing | Configuration | Validation
| Permission | Resource | Internal | External.

(** [ErrorCategory::is_retryable]:
    [matches!(self, Network | External | Process)] *)
Definition is_retryable_cat (c : ErrorCategory) : bool :=
  match c with
  | Network | External | Process => true
  | _ => false
  end.

(** [HttpStatus] *)
Inductive HttpStatus :=
| BadRequest | Unauthorized | Forbidden | NotFoundStatus | RequestTimeout
| Conflict | UnprocessableEntity | TooManyRequests | InternalServerError
| BadGateway | ServiceUnavailable | GatewayTimeout.

(** [HttpStatus::code] *)
Definition code (s : HttpStatus) : nat :=
  match s with
  | BadRequest => 400 | Unauthorized => 401 | Forbidden => 403
  | NotFoundStatus => 404 | RequestTimeout => 408 | Conflict => 409
  | UnprocessableEntity => 422 | TooManyRequests => 429
  | InternalServerError => 500 | BadGateway => 502
  | ServiceUnavailable => 503 | GatewayTimeout => 504
  end.

(** [ClaudeError]; payloads are kept as their message strings
    ([ConnectionError], [ProcessError] and the other error structs carry a
    message; the remaining fields play no role in the classification). *)
Inductive ClaudeError :=
| Connection (message : string)
| ProcessErr (message : string)
| JsonDecode (message : string) (line : string)
| MessageParse (message : string)
| Transport (msg : string)
| ControlProtocol (msg : string)
| InvalidConfig (msg : string)
| CliNotFound (message : string)
| ImageValidation (message : string)
| Io (msg : string)
| Other (msg : string)
| NotFound (msg : string)
| InvalidInput (msg : string)
| InternalError (msg : string).

(** [ClaudeError::category] *)
Definition category (e : ClaudeError) : ErrorCategory :=
  match e with
  | Connection _ => Network
  | ProcessErr _ => Process
  | JsonDecode _ _ => Parsing
  | MessageParse _ => Parsing
  | Transport _ => Network
  | ControlProtocol _ => Internal
  | InvalidConfig _ => Configuration
  | CliNotFound _ => Configuration
  | ImageValidation _ => Validation
  | Io _ => Internal
  | Other _ => Internal
  | NotFound _ => Resource
  | InvalidInput _ => Validation
  | InternalError _ => Internal
  end.

(** [ClaudeError::error_code] *)
Definition error_code (e : ClaudeError) : string :=
  match e with
  | Connection _ => "ENET001"
  | ProcessErr _ => "EPROC001"
  | JsonDecode _ _ => "EPARSE001"
  | MessageParse _ => "EPARSE002"
  | Transport _ => "ENET002"
  | ControlProtocol _ => "EINT001"
  | InvalidConfig _ => "ECFG001"
  | CliNotFound _ => "ECFG002"
  | ImageValidation _ => "EVAL001"
  | Io _ => "EINT002"
  | Other _ => "EINT003"
  | NotFound _ => "ERES001"
  | InvalidInput _ => "EVAL002"
  | InternalError _ => "EINT004"
  end.

(** [ClaudeError::is_retryable]: [self.category().is_retryable()] *)
Definition is_retryable (e : ClaudeError) : bool :=
  is_retryable_cat (category e).

(** [ClaudeError::http_status] *)
Definition http_status (e : ClaudeError) : HttpStatus :=
  match e with
  | Connection _ => ServiceUnavailable
  | ProcessErr _ => BadGateway
  | JsonDecode _ _ => UnprocessableEntity
  | MessageParse _ => UnprocessableEntity
  | Transport _ => ServiceUnavailable
  | ControlProtocol _ => InternalServerError
  | InvalidConfig _ => InternalServerError
  | CliNotFound _ => InternalServerError
  | ImageValidation _ => BadRequest
  | Io _ => InternalServerError
  | Other _ => InternalServerError
  | NotFound _ => NotFoundStatus
  | InvalidInput _ => BadRequest
  | InternalError _ => InternalServerError
  end.

(** The closed category set, in declaration order. *)
Definition all_categories : list ErrorCategory :=
  [Network; Process; Parsing; Configuration; Validation;
   Permission; Resource; Internal; External].

(** Variant tag of an error, used to state that codes are per variant. *)
Definition variant_index (e : ClaudeError) : nat :=
  match e with
  | Connection _ => 0 | ProcessErr _ => 1 | JsonDecode _ _ => 2
  | MessageParse _ => 3 | Transport _ => 4 | ControlProtocol _ => 5
  | InvalidConfig _ => 6 | CliNotFound _ => 7 | ImageValidation _ => 8
  | Io _ => 9 | Other _ => 10 | NotFound _ => 11 | InvalidInput _ => 12
  | InternalError _ => 13
  end.

End Errors.

(* ------------------------------------------------------------------ *)
(** * Strings: the [&str] operations the code uses                    *)
(* ------------------------------------------------------------------ *)

Module Str.

(** Strings are held as their UTF-8 bytes.  [char::is_whitespace] is the
    Unicode [White_Space] property: U+0009..U+000D, U+0020, U+0085, U+00A0,
    U+1680, U+2000..U+200A, U+2028, U+2029, U+202F, U+205F and U+3000; these
    are their UTF-8 encodings. *)
Definition ws_utf8 : list (list nat) :=
  [[9]; [10]; [11]; [12]; [13]; [32];
   [194; 133]; [194; 160];
   [225; 154; 128];
   [226; 128; 128]; [226; 128; 129]; [226; 128; 130]; [226; 128; 131];
   [226; 128; 132]; [226; 128; 133]; [226; 128; 134]; [226; 128; 135];
   [226; 128; 136]; [226; 128; 137]; [226; 128; 138];
   [226; 128; 168]; [226; 128; 169]; [226; 128; 175];
   [226; 129; 159];
   [227; 128; 128]]%list.

Definition bytes (l : list nat) : string :=
  string_of_list_ascii (List.map ascii_of_nat l).

Definition ws_chars : list string := List.map bytes ws_utf8.

Definition rev_str (s : string) : string :=
  string_of_list_ascii (rev (list_ascii_of_string s)).

(** Removes leading characters of [pats] one at a time; each removal
    shortens the string, so [n = String.length s] rounds suffice. *)
Fixpoint strip_leading (pats : list string) (n : nat) (s : string) : string :=
  match n with
  | O => s
  | S n' =>
      match find (fun w => String.prefix w s) pats with
      | Some w => strip_leading pats n'
                    (substring (String.length w) (String.length s - String.length w) s)
      | None => s
      end
  end.

(** [str::trim_start] *)
Definition trim_start (s : string) : string :=
  strip_leading ws_chars (String.length s) s.

(** [str::trim_end]: on valid UTF-8 a byte suffix equal to the encoding of
    a character is that character. *)
Definition trim_end (s : string) : string :=
  rev_str (strip_leading (List.map rev_str ws_chars) (String.length s) (rev_str s)).

(** [str::trim] *)
Definition trim (s : string) : string := trim_end (trim_start s).


(** [str::is_empty] *)
Definition is_empty (s : string) : bool :=
  match s with EmptyString => true | _ => false end.

End Str.

(* ------------------------------------------------------------------ *)
(** * internal/message_parser.rs : MessageKind::detect                  *)
(* ------------------------------------------------------------------ *)

Module Parser.








(** Modelled from the spec: full decoding of a line into [Message]
    ([crate::types::messages::Message], whose definition is not part of the
    sources at hand).  The spec describes a line as one complete JSON object
    (wire format: newline-delimited JSON) and a parsed message as one of a
    closed set of variants selected by the discriminant field [type].  The
    model parses JSON text (whitespace between tokens is insignificant) and
    reports the variant named by the top-level [type] field; the fields of
    each variant are not checked. *)
Inductive json :=
| JNull
| JBool (b : bool)
| JNum (digits : string)
| JStr (s : string)
| JArr (xs : list json)
| JObj (kvs : list (string * json)).

Definition is_json_ws (c : ascii) : bool :=
  let n := nat_of_ascii c in
  Nat.eqb n 32 || Nat.eqb n 9 || Nat.eqb n 10 || Nat.eqb n 13.

Fixpoint skip_ws (s : list ascii) : list ascii :=
  match s with
  | c :: r => if is_json_ws c then skip_ws r else s
  | [] => []
  end.

Definition chr (n : nat) : ascii := ascii_of_nat n.

(** String body after the opening quote: returns the contents and the rest
    after the closing quote.  A backslash keeps the next character. *)
Fixpoint lex_string (s : list ascii) (acc : list ascii)
  : option (string * list ascii) :=
  match s with
  | [] => None
  | c :: r =>
      if Nat.eqb (nat_of_ascii c) 34 then Some (string_of_list_ascii (rev acc), r)
      else if Nat.eqb (nat_of_ascii c) 92 then
        match r with
        | d :: r' => lex_string r' (d :: acc)
        | [] => None
        end
      else if Nat.ltb (nat_of_ascii c) 32 then None
      else lex_string r (c :: acc)
  end.

Definition is_num_char (c : ascii) : bool :=
  let n := nat_of_ascii c in
  (Nat.leb 48 n && Nat.leb n 57) || Nat.eqb n 45 || Nat.eqb n 43
  || Nat.eqb n 46 || Nat.eqb n 101 || Nat.eqb n 69.

Fixpoint lex_number (s : list ascii) (acc : list ascii) : string * list ascii :=
  match s with
  | c :: r => if is_num_char c then lex_number r (c :: acc)
              else (string_of_list_ascii (rev acc), s)
  | [] => (string_of_list_ascii (rev acc), [])
  end.

Fixpoint strip_prefix (p s : list ascii) : option (list ascii) :=
  match p, s with
  | [], _ => Some s
  | a :: p', b :: s' => if Ascii.eqb a b then strip_prefix p' s' else None
  | _ :: _, [] => None
  end.

(** Recursive-descent JSON value parser, with fuel for termination. *)
Fixpoint parse_value (fuel : nat) (s : list ascii) : option (json * list ascii) :=
  match fuel with
  | O => None
  | S f =>
    match skip_ws s with
    | [] => None
    | c :: r =>
      let n := nat_of_ascii c in
      if Nat.eqb n 123 then
        (* object *)
        match skip_ws r with
        | c' :: r' => if Nat.eqb (nat_of_ascii c') 125 then Some (JObj [], r')
                      else parse_members f (skip_ws r) []
        | [] => None
        end
      else if Nat.eqb n 91 then
        match skip_ws r with
        | c' :: r' => if Nat.eqb (nat_of_ascii c') 93 then Some (JArr [], r')
                      else parse_elems f r []
        | [] => None
        end
      else if Nat.eqb n 34 then
        match lex_string r [] with
        | Some (str, rest) => Some (JStr str, rest)
        | None => None
        end
      else if is_num_char c then
        let (d, rest) := lex_number (c :: r) [] in Some (JNum d, rest)
      else match strip_prefix (list_ascii_of_string "true") (c :: r) with
        | Some rest => Some (JBool true, rest)
        | None =>
          match strip_prefix (list_ascii_of_string "false") (c :: r) with
          | Some rest => Some (JBool false, rest)
          | None =>
            match strip_prefix (list_ascii_of_string "null") (c :: r) with
            | Some rest => Some (JNull, rest)
            | None => None
            end
          end
        end
    end
  end
(** Members of an object, starting at a key. *)
with parse_members (fuel : nat) (s : list ascii) (acc : list (string * json))
  : option (json * list ascii) :=
  match fuel with
  | O => None
  | S f =>
    match skip_ws s with
    | c :: r =>
      if Nat.eqb (nat_of_ascii c) 34 then
        match lex_string r [] with
        | Some (k, rest) =>
          match skip_ws rest with
          | c1 :: rest1 =>
            if Nat.eqb (nat_of_ascii c1) 58 then
              match parse_value f rest1 with
              | Some (v, rest2) =>
                match skip_ws rest2 with
                | c2 :: rest3 =>
                  if Nat.eqb (nat_of_ascii c2) 44 then parse_members f rest3 ((k, v) :: acc)
                  else if Nat.eqb (nat_of_ascii c2) 125 then Some (JObj (rev ((k, v) :: acc)), rest3)
                  else None
                | [] => None
                end
              | None => None
              end
            else None
          | [] => None
          end
        | None => None
        end
      else None
    | [] => None
    end
  end
(** Elements of an array. *)
with parse_elems (fuel : nat) (s : list ascii) (acc : list json)
  : option (json * list ascii) :=
  match fuel with
  | O => None
  | S f =>
    match parse_value f s with
    | Some (v, rest) =>
      match skip_ws rest with
      | c :: rest1 =>
        if Nat.eqb (nat_of_ascii c) 44 then parse_elems f rest1 (v :: acc)
        else if Nat.eqb (nat_of_ascii c) 93 then Some (JArr (rev (v :: acc)), rest1)
        else None
      | [] => None
      end
    | None => None
    end
  end.

(** A whole line: one JSON value followed only by whitespace. *)
Definition parse_json (line : string) : option json :=
  let s := list_ascii_of_string line in
  match parse_value (2 * List.length s + 2) s with
  | Some (v, rest) => match skip_ws rest with [] => Some v | _ => None end
  | None => None
  end.








End Parser.

(* ------------------------------------------------------------------ *)
(** * internal/transport/subprocess.rs : read_messages, read_raw_messages *)
(* ------------------------------------------------------------------ *)

Module Reader.
Import Errors.

(** [DynamicBufferConfig].  [growth_factor] is an [f64]; the code only uses
    it through [(current_capacity as f64 * growth_factor) as usize], which is
    kept as the function [grow]. *)
Record DynamicBufferConfig := {
  initial_size : nat;
  grow : nat -> nat;
  max_message_size : nat;
  enable_metrics : bool
}.

(** [BufferMetricsSnapshot] / the counters of [AtomicBufferMetrics]. *)
Record Metrics := {
  peak_size : nat;
  message_count : nat;
  total_bytes : nat;
  resize_count : nat
}.

Definition metrics_zero : Metrics := Build_Metrics 0 0 0 0.

(** [usize] is 64 bits wide. *)
Definition usize_modulus : N := 18446744073709551616.

(** [AtomicUsize::fetch_add] wraps around on overflow. *)
Definition wrapping_add (a b : nat) : nat :=
  N.to_nat ((N.of_nat a + N.of_nat b) mod usize_modulus).
Arguments wrapping_add : simpl never.

(** [inc_message_count]; [add_bytes]; [update_peak] *)
Definition record_line (m : Metrics) (bytes : nat) : Metrics :=
  {| peak_size := Nat.max (peak_size m) bytes;
     message_count := wrapping_add (message_count m) 1;
     total_bytes := wrapping_add (total_bytes m) bytes;
     resize_count := resize_count m |}.

(** [inc_resize_count] *)
Definition inc_resize (m : Metrics) : Metrics :=
  {| peak_size := peak_size m; message_count := message_count m;
     total_bytes := total_bytes m; resize_count := wrapping_add (resize_count m) 1 |}.

(** The [if enable_metrics { ... }] block: metrics and the new
    [current_capacity]. *)
Definition track (cfg : DynamicBufferConfig) (cap : nat) (m : Metrics)
    (bytes : nat) : Metrics * nat :=
  if enable_metrics cfg then
    let m1 := record_line m bytes in
    if Nat.ltb cap bytes then
      (inc_resize m1, Nat.min (grow cfg cap) (max_message_size cfg))
    else (m1, cap)
  else (m, cap).

(** One result of [reader.read_line(&mut line)]: the bytes read (the line
    with its terminator; an empty chunk is [Ok(0)], end of file) or an I/O
    error.  The end of the list is also end of file. *)
Inductive ReadEvent :=
| ReadOk (chunk : string)
| ReadErr (msg : string).

(** Items of the stream: [Result<T>]. *)
Inductive item (T : Type) :=
| Ok (v : T)
| Err (e : ClaudeError).
Arguments Ok {T} v.
Arguments Err {T} e.

Definition size_exceeded : ClaudeError :=
  Transport "Message size exceeded maximum".

Definition is_size_exceeded {T} (x : item T) : bool :=
  match x with
  | Err (Transport s) => String.eqb s "Message size exceeded maximum"
  | _ => false
  end.

Section Loop.
Variable V : Type.
(** [serde_json::from_str::<serde_json::Value>] *)
Variable from_str : string -> option V.
Variable cfg : DynamicBufferConfig.

(** The [loop] of [read_messages]: returns the items yielded and the
    metrics when the stream ends. *)
Fixpoint read_messages_loop (cap : nat) (m : Metrics) (input : list ReadEvent)
    : list (item V) * Metrics :=
  match input with
  | [] => ([], m)
  | ReadErr e :: _ => ([Err (Transport ("Failed to read line: " ++ e))], m)
  | ReadOk chunk :: rest =>
      let bytes_read := String.length chunk in
      if Nat.eqb bytes_read 0 then ([], m)
      else if Nat.ltb (max_message_size cfg) bytes_read then ([Err size_exceeded], m)
      else
        let (m', cap') := track cfg cap m bytes_read in
        let trimmed := Str.trim chunk in
        if Str.is_empty trimmed then read_messages_loop cap' m' rest
        else match from_str trimmed with
             | Some json =>
                 let (xs, mf) := read_messages_loop cap' m' rest in
                 (Ok json :: xs, mf)
             | None =>
                 let (xs, mf) := read_messages_loop cap' m' rest in
                 (Err (JsonDecode "Failed to parse JSON" trimmed) :: xs, mf)
             end
  end.

End Loop.

(** The [loop] of [read_raw_messages]. *)
Fixpoint read_raw_loop (cfg : DynamicBufferConfig) (cap : nat) (m : Metrics)
    (input : list ReadEvent) : list (item string) * Metrics :=
  match input with
  | [] => ([], m)
  | ReadErr e :: _ => ([Err (Transport ("Failed to read line: " ++ e))], m)
  | ReadOk chunk :: rest =>
      let bytes_read := String.length chunk in
      if Nat.eqb bytes_read 0 then ([], m)
      else if Nat.ltb (max_message_size cfg) bytes_read then ([Err size_exceeded], m)
      else
        let (m', cap') := track cfg cap m bytes_read in
        let trimmed := Str.trim chunk in
        if Str.is_empty trimmed then read_raw_loop cfg cap' m' rest
        else let (xs, mf) := read_raw_loop cfg cap' m' rest in
             (Ok trimmed :: xs, mf)
  end.

(** The parts of [SubprocessTransport] the read paths touch.  [stdout] is
    the sequence of [read_line] results still to come; [process_running]
    stands for the [Child] in [process]. *)
Record TransportState := {
  process_running : bool;
  stdout : option (list ReadEvent);
  buffer_config : DynamicBufferConfig;
  buffer_metrics : Metrics
}.

Definition with_metrics (t : TransportState) (m : Metrics) : TransportState :=
  {| process_running := process_running t; stdout := stdout t;
     buffer_config := buffer_config t; buffer_metrics := m |}.

(** [SubprocessTransport::read_messages], run to the end of the stream. *)
Definition read_messages {V} (from_str : string -> option V)
    (t : TransportState) : list (item V) * TransportState :=
  match stdout t with
  | None => ([], t)
  | Some input =>
      let cfg := buffer_config t in
      let (xs, m) := read_messages_loop V from_str cfg (initial_size cfg)
                       (buffer_metrics t) input in
      (xs, with_metrics t m)
  end.

(** [SubprocessTransport::read_raw_messages], run to the end of the stream. *)
Definition read_raw_messages (t : TransportState)
    : list (item string) * TransportState :=
  match stdout t with
  | None => ([], t)
  | Some input =>
      let cfg := buffer_config t in
      let (xs, m) := read_raw_loop cfg (initial_size cfg) (buffer_metrics t) input in
      (xs, with_metrics t m)
  end.

Definition passes (cfg : DynamicBufferConfig) (ev : ReadEvent) : Prop :=
  match ev with
  | ReadOk c => 0 < String.length c <= max_message_size cfg
  | ReadErr _ => False
  end.

Definition within (cfg : DynamicBufferConfig) (ev : ReadEvent) : Prop :=
  match ev with
  | ReadOk c => String.length c <= max_message_size cfg
  | ReadErr _ => True
  end.

End Reader.

(* ------------------------------------------------------------------ *)
(** * internal/transport/subprocess.rs : SubprocessTransport::new, connect *)
(* ------------------------------------------------------------------ *)

Module Connect.
Import Errors Reader.

(** The file system as far as [Path::exists] and [Path::is_dir] see it. *)
Inductive Node := NDir | NFile.
Definition FileSystem := list (string * Node).

Definition lookup (fs : FileSystem) (p : string) : option Node :=
  match find (fun e => String.eqb (fst e) p) fs with
  | Some (_, n) => Some n
  | None => None
  end.

(** [Path::exists] *)
Definition path_exists (fs : FileSystem) (p : string) : bool :=
  match lookup fs p with Some _ => true | None => false end.

(** [Path::is_dir] *)
Definition is_dir (fs : FileSystem) (p : string) : bool :=
  match lookup fs p with Some NDir => true | _ => false end.

Definition is_file (fs : FileSystem) (p : string) : bool :=
  match lookup fs p with Some NFile => true | _ => false end.

(** The process environment: whether [SKIP_VERSION_CHECK_ENV] is set, the
    outcome of the CLI search of [find_cli_with_auto_install] and
    [std::env::current_dir()]. *)
Record Env := {
  skip_version_check : bool;
  cli_search : option string;
  current_dir : option string
}.

(** The fields of [ClaudeAgentOptions] these functions read. *)
Record Options := {
  opt_cwd : option string;
  opt_cli_path : option string
}.

(** The fields [new] sets from the options. *)
Record Subprocess := {
  cli_path : string;
  cwd : option string;
  ready : bool
}.

(** Process spawn attempts, in order: program, arguments, working directory. *)
Inductive Event := Spawn (program : string) (args : list string) (dir : option string).

(** [find_cli_with_auto_install]: its first strategy runs [claude --version]. *)
Definition find_cli (env : Env) : list Event * item string :=
  ([Spawn "claude" ["--version"] None],
   match cli_search env with
   | Some p => Ok p
   | None => Err (CliNotFound "Claude Code CLI not found")
   end).

(** [SubprocessTransport::new] *)
Definition new (env : Env) (fs : FileSystem) (options : Options)
    : list Event * item Subprocess :=
  let checked :=
    match opt_cwd options with
    | Some c =>
        if negb (path_exists fs c) then Some (InvalidConfig "Working directory does not exist")
        else if negb (is_dir fs c) then Some (InvalidConfig "Working directory path is not a directory")
        else None
    | None => None
    end in
  match checked with
  | Some e => ([], Err e)
  | None =>
      let (ev, found) :=
        match opt_cli_path options with
        | Some p => ([], Ok p)
        | None => find_cli env
        end in
      match found with
      | Err e => (ev, Err e)
      | Ok cli =>
          let c := match opt_cwd options with
                   | Some c => Some c
                   | None => current_dir env
                   end in
          (ev, Ok {| cli_path := cli; cwd := c; ready := false |})
      end
  end.

(** [check_claude_version]: [Command::new(cli_path).arg("--version").output()]
    fails when the program cannot be started. *)
Definition check_claude_version (env : Env) (fs : FileSystem) (t : Subprocess)
    : list Event * item unit :=
  if skip_version_check env then ([], Ok tt)
  else ([Spawn (cli_path t) ["--version"] None],
        if is_file fs (cli_path t) then Ok tt
        else Err (Connection "Failed to get Claude version")).

(** [cmd.spawn()] with [current_dir(cwd)]: fails when the program or the
    working directory is missing. *)
Definition spawn_ok (fs : FileSystem) (t : Subprocess) : bool :=
  is_file fs (cli_path t) &&
  match cwd t with Some c => is_dir fs c | None => true end.

(** [SubprocessTransport::connect] up to the spawn; sending the initial
    prompt afterwards does not touch the working directory.  The arguments
    of [build_command] are abbreviated to the output-format flags. *)
Definition connect (env : Env) (fs : FileSystem) (t : Subprocess)
    : list Event * item Subprocess :=
  let (ev1, v) := check_claude_version env fs t in
  match v with
  | Err e => (ev1, Err e)
  | Ok _ =>
      let ev := (ev1 ++ [Spawn (cli_path t) ["--output-format"; "stream-json"] (cwd t)])%list in
      if spawn_ok fs t then (ev, Ok {| cli_path := cli_path t; cwd := cwd t; ready := true |})
      else (ev, Err (ProcessErr "Failed to spawn Claude CLI process"))
  end.

(** Building a transport and connecting it, on the file system [fs0] at
    construction and [fs1] at connection. *)
Definition new_then_connect (env : Env) (fs0 fs1 : FileSystem) (o : Options)
    : list Event * item Subprocess :=
  match new env fs0 o with
  | (ev, Err e) => (ev, Err e)
  | (ev, Ok t) => let (ev', r) := connect env fs1 t in ((ev ++ ev')%list, r)
  end.

Definition is_invalid_config {T} (r : item T) : bool :=
  match r with Err (InvalidConfig _) => true | _ => false end.

End Connect.

(* ------------------------------------------------------------------ *)
(** * internal/pool.rs : ConnectionPool, WorkerGuard                     *)
(* ------------------------------------------------------------------ *)

Module Pool.
Import Errors Reader.
Local Open Scope list_scope.

(** [ACQUIRE_TIMEOUT_SECS] *)
Definition ACQUIRE_TIMEOUT_SECS : nat := 30.

(** [PoolConfig]; durations in seconds. *)
Record PoolConfig := {
  min_size : nat;
  max_size : nat;
  idle_timeout : nat;
  enabled : bool
}.

(** [PooledWorker]: [pid] is [process.id()], [Some] until the child is
    reaped (nothing in the pool waits on it). *)
Record PooledWorker := {
  id : nat;
  last_activity : nat;
  healthy : bool;
  pid : option nat
}.

(** [PooledWorker::is_healthy] *)
Definition is_healthy (w : PooledWorker) : bool :=
  healthy w && match pid w with Some _ => true | None => false end.

(** [PooledWorker::is_idle_timeout]: [last_activity.elapsed() > timeout_dur] *)
Definition is_idle_timeout (now : nat) (w : PooledWorker) (timeout_dur : nat) : bool :=
  Nat.ltb timeout_dur (now - last_activity w).
Arguments is_idle_timeout : simpl never.

(** [PooledWorker::touch] *)
Definition touch (now : nat) (w : PooledWorker) : PooledWorker :=
  {| id := id w; last_activity := now; healthy := healthy w; pid := pid w |}.

(** [PoolState] *)
Record PoolState := {
  total_created : nat;
  active_count : nat
}.

(** A [ConnectionPool] together with the clock and the workers lent out
    through live [WorkerGuard]s (each guard also owns one semaphore
    permit).  [chan] is the bounded [mpsc] return channel (capacity
    [max_size]) in FIFO order, [permits] the semaphore's available permits,
    [killed] the ids of workers whose [Drop] sent [start_kill]. *)
Record Pool := {
  config : PoolConfig;
  clock : nat;
  permits : nat;
  chan : list PooledWorker;
  next_worker_id : nat;
  state : PoolState;
  guards : list PooledWorker;
  killed : list nat
}.

Definition set_clock (p : Pool) (c : nat) : Pool :=
  Build_Pool (config p) c (permits p) (chan p) (next_worker_id p) (state p) (guards p) (killed p).
Definition set_permits (p : Pool) (n : nat) : Pool :=
  Build_Pool (config p) (clock p) n (chan p) (next_worker_id p) (state p) (guards p) (killed p).
Definition set_chan (p : Pool) (c : list PooledWorker) : Pool :=
  Build_Pool (config p) (clock p) (permits p) c (next_worker_id p) (state p) (guards p) (killed p).
Definition set_next_id (p : Pool) (n : nat) : Pool :=
  Build_Pool (config p) (clock p) (permits p) (chan p) n (state p) (guards p) (killed p).
Definition set_state (p : Pool) (s : PoolState) : Pool :=
  Build_Pool (config p) (clock p) (permits p) (chan p) (next_worker_id p) s (guards p) (killed p).
Definition set_guards (p : Pool) (g : list PooledWorker) : Pool :=
  Build_Pool (config p) (clock p) (permits p) (chan p) (next_worker_id p) (state p) g (killed p).
Definition set_killed (p : Pool) (k : list nat) : Pool :=
  Build_Pool (config p) (clock p) (permits p) (chan p) (next_worker_id p) (state p) (guards p) k.

(** [ConnectionPool::new] *)
Definition new (cfg : PoolConfig) : Pool :=
  {| config := cfg; clock := 0; permits := max_size cfg; chan := [];
     next_worker_id := 0;
     state := {| total_created := 0; active_count := 0 |};
     guards := []; killed := [] |}.

(** [impl Drop for PooledWorker]: [start_kill] when [process.id()] is [Some]. *)
Definition drop_worker (w : PooledWorker) (p : Pool) : Pool :=
  match pid w with
  | Some _ => set_killed p (id w :: killed p)
  | None => p
  end.

(** [return_tx.try_send(worker)]: fails when the channel holds [max_size]
    workers, and the rejected worker is dropped. *)
Definition try_send (w : PooledWorker) (p : Pool) : Pool :=
  if Nat.ltb (List.length (chan p)) (max_size (config p))
  then set_chan p (chan p ++ [w])
  else drop_worker w p.

(** The error of [PooledWorker::spawn_process] when [cmd.spawn()] fails.
    A failed worker creation is given this error; the code reports a
    [Connection] error instead when [options.cli_path] is unset. *)
Definition spawn_error : ClaudeError :=
  ProcessErr "Failed to spawn CLI process for pool".

(** The error of [acquire] when no permit is obtained within
    [ACQUIRE_TIMEOUT_SECS]. *)
Definition timeout_error : ClaudeError :=
  Connection "Timeout acquiring worker from pool".

(** [ConnectionPool::create_worker]; [spawn] says whether spawning the CLI
    process succeeds.  The id counter is a [nat]: it is the code's [usize]
    counter as long as at most [usize::MAX] ids have been issued. *)
Definition create_worker (spawn : bool) (p : Pool) : Pool * item PooledWorker :=
  let n := S (next_worker_id p) in
  let p1 := set_next_id p n in
  if spawn then
    let w := {| id := n; last_activity := clock p; healthy := true; pid := Some n |} in
    let s := state p1 in
    (set_state p1 {| total_created := S (total_created s);
                     active_count := S (active_count s) |}, Ok w)
  else (p1, Err spawn_error).

(** [ConnectionPool::initialize] *)
Fixpoint initialize_loop (k : nat) (spawn : bool) (p : Pool) : Pool * item unit :=
  match k with
  | O => (p, Ok tt)
  | S k' =>
      match create_worker spawn p with
      | (p1, Ok w) => initialize_loop k' spawn (try_send w p1)
      | (p1, Err e) => (p1, Err e)
      end
  end.

Definition initialize (spawn : bool) (p : Pool) : Pool * item unit :=
  initialize_loop (min_size (config p)) spawn p.

(** The [rx.try_recv()] block of [acquire]: a received worker is kept when
    healthy and not idle past the timeout, and dropped otherwise. *)
Definition recycle (p : Pool) : Pool * option PooledWorker :=
  match chan p with
  | w :: rest =>
      let p2 := set_chan p rest in
      if is_healthy w && negb (is_idle_timeout (clock p) w (idle_timeout (config p)))
      then (p2, Some w)
      else (drop_worker w p2, None)
  | [] => (p, None)
  end.

(** [ConnectionPool::acquire].  The semaphore wait is atomic here: with no
    permit available no guard is released during the wait and the
    [timeout] fires; a wait that ends with a release is the interleaving in
    which the release comes first. *)
Definition acquire (spawn : bool) (p : Pool) : Pool * item PooledWorker :=
  match permits p with
  | O => (p, Err timeout_error)
  | S k =>
      let (p2, recycled) := recycle (set_permits p k) in
      match recycled with
      | Some w => (set_guards p2 (guards p2 ++ [w]), Ok w)
      | None =>
          match create_worker spawn p2 with
          | (p3, Ok w) => (set_guards p3 (guards p3 ++ [w]), Ok w)
          | (p3, Err e) => (set_permits p3 (S (permits p3)), Err e)
          end
      end
  end.

Fixpoint remove_nth {A} (n : nat) (l : list A) : list A :=
  match n, l with
  | _, [] => []
  | O, _ :: r => r
  | S n', x :: r => x :: remove_nth n' r
  end.

(** [impl Drop for WorkerGuard] for the [n]-th live guard: the worker is
    offered back with [try_send], then the permit is released. *)
Definition drop_guard (n : nat) (p : Pool) : Pool :=
  match nth_error (guards p) n with
  | None => p
  | Some w =>
      let p1 := set_guards p (remove_nth n (guards p)) in
      let p2 := try_send w p1 in
      set_permits p2 (S (permits p2))
  end.

Fixpoint update_nth {A} (n : nat) (f : A -> A) (l : list A) : list A :=
  match n, l with
  | _, [] => []
  | O, x :: r => f x :: r
  | S n', x :: r => x :: update_nth n' f r
  end.

(** [WorkerGuard::write] / [WorkerGuard::read_line] on the [n]-th guard:
    the I/O ends with [touch]. *)
Definition guard_io (n : nat) (p : Pool) : Pool :=
  set_guards p (update_nth n (touch (clock p)) (guards p)).



(** Every operation on a pool, interleaved arbitrarily. *)
Inductive step : Pool -> Pool -> Prop :=
| StepAcquire spawn p : step p (fst (acquire spawn p))
| StepDrop n p : step p (drop_guard n p)
| StepIo n p : step p (guard_io n p)
| StepInit spawn p : step p (fst (initialize spawn p))
| StepTick d p : step p (set_clock p (clock p + d)).

Inductive reachable (cfg : PoolConfig) : Pool -> Prop :=
| ReachNew : reachable cfg (new cfg)
| ReachStep p q : reachable cfg p -> step p q -> reachable cfg q.

End Pool.

(* ------------------------------------------------------------------ *)
(** * internal/transport/subprocess.rs : buffer metrics                 *)
(* ------------------------------------------------------------------ *)

Module BufferMetrics.
Import Errors Reader.

(** [BufferMetricsSnapshot::average_message_size] *)
Definition average_message_size (m : Metrics) : nat :=
  if Nat.eqb (message_count m) 0 then 0
  else total_bytes m / message_count m.

(** [AtomicBufferMetrics::reset] (through [reset_buffer_metrics]). *)
Definition reset (t : TransportState) : TransportState :=
  with_metrics t metrics_zero.

(** The decoding step of [read_messages] ([serde_json::from_str] on the
    trimmed line) applied to one item of [read_raw_messages]. *)
Definition decode_item {V} (from_str : string -> option V) (x : item string) : item V :=
  match x with
  | Ok trimmed =>
      match from_str trimmed with
      | Some json => Ok json
      | None => Err (JsonDecode "Failed to parse JSON" trimmed)
      end
  | Err e => Err e
  end.

(** Bytes [read_line] reported for one event. *)
Definition line_bytes (ev : ReadEvent) : nat :=
  match ev with ReadOk c => String.length c | ReadErr _ => 0 end.

End BufferMetrics.

(* ------------------------------------------------------------------ *)
(** * internal/transport/subprocess.rs : stdin of a connected transport *)
(* ------------------------------------------------------------------ *)

Module Stdin.
Import Errors Reader.

(** What [Child::wait] reports in [close]: an error, or the exit status
    with [status.success()]. *)
Inductive WaitOutcome :=
| WaitFailed
| Exited (success : bool).

(** The stdin side of a connected [SubprocessTransport].  A connection
    has one [ChildStdin]; it sits in [self.stdin] ([stdin]) or in one of the
    shared cells [Arc<Mutex<Option<ChildStdin>>>] created by
    [take_stdin_arc] ([cells], [true] when the cell holds it), the one the
    transport keeps being [stdin_arc].  [received] is what the child has
    read from its stdin, [eof] whether its stdin is closed, [broken]
    whether the child closed its end (writes then fail), [proc] the
    [Child] in [self.process] and [tready] the [ready] flag. *)
Record StdinState := {
  stdin : bool;
  stdin_arc : option nat;
  cells : list bool;
  received : string;
  eof : bool;
  broken : bool;
  proc : option WaitOutcome;
  tready : bool
}.

Definition lf : string := String (ascii_of_nat 10) EmptyString.

Definition cell_has (s : StdinState) (i : nat) : bool :=
  match nth_error (cells s) i with Some b => b | None => false end.

Fixpoint set_nth (n : nat) (v : bool) (l : list bool) : list bool :=
  match n, l with
  | _, [] => []
  | O, _ :: r => v :: r
  | S n', x :: r => x :: set_nth n' v r
  end.

Definition with_stdin (s : StdinState) (b : bool) : StdinState :=
  {| stdin := b; stdin_arc := stdin_arc s; cells := cells s; received := received s;
     eof := eof s; broken := broken s; proc := proc s; tready := tready s |}.
Definition with_cells (s : StdinState) (c : list bool) : StdinState :=
  {| stdin := stdin s; stdin_arc := stdin_arc s; cells := c; received := received s;
     eof := eof s; broken := broken s; proc := proc s; tready := tready s |}.
Definition with_received (s : StdinState) (r : string) : StdinState :=
  {| stdin := stdin s; stdin_arc := stdin_arc s; cells := cells s; received := r;
     eof := eof s; broken := broken s; proc := proc s; tready := tready s |}.
Definition with_eof (s : StdinState) (b : bool) : StdinState :=
  {| stdin := stdin s; stdin_arc := stdin_arc s; cells := cells s; received := received s;
     eof := b; broken := broken s; proc := proc s; tready := tready s |}.
Definition with_proc (s : StdinState) (o : option WaitOutcome) : StdinState :=
  {| stdin := stdin s; stdin_arc := stdin_arc s; cells := cells s; received := received s;
     eof := eof s; broken := broken s; proc := o; tready := tready s |}.
Definition with_ready (s : StdinState) (b : bool) : StdinState :=
  {| stdin := stdin s; stdin_arc := stdin_arc s; cells := cells s; received := received s;
     eof := eof s; broken := broken s; proc := proc s; tready := b |}.

(** [write_all(data)], [write_all(b"\n")], [flush()] on a [ChildStdin]:
    on a broken pipe the first non-empty write fails (an empty [data]
    writes nothing, so the newline is the first to fail). *)
Definition pipe_write (data : string) (s : StdinState) : StdinState * item unit :=
  if broken s then
    if Str.is_empty data then (s, Err (Transport "Failed to write newline"))
    else (s, Err (Transport "Failed to write to stdin"))
  else (with_received s (received s ++ data ++ lf), Ok tt).

(** [<SubprocessTransport as Transport>::write]: the direct stdin first,
    then the shared one. *)
Definition write (data : string) (s : StdinState) : StdinState * item unit :=
  if stdin s then pipe_write data s
  else match stdin_arc s with
       | Some i => if cell_has s i then pipe_write data s
                   else (s, Err (Transport "stdin not available"))
       | None => (s, Err (Transport "stdin not available"))
       end.

(** [SubprocessTransport::take_stdin_arc]: moves stdin into a new shared
    cell, or returns the existing one. *)
Definition take_stdin_arc (s : StdinState) : StdinState * option nat :=
  if stdin s then
    let i := List.length (cells s) in
    ({| stdin := false; stdin_arc := Some i; cells := cells s ++ [true];
        received := received s; eof := eof s; broken := broken s;
        proc := proc s; tready := tready s |}, Some i)
  else (s, stdin_arc s).

(** [stdin.shutdown()] on a child pipe closes it (tokio's pipe shutdown
    writes nothing and succeeds). *)
Definition end_input (s : StdinState) : StdinState * item unit :=
  if stdin s then (with_eof (with_stdin s false) true, Ok tt)
  else match stdin_arc s with
       | Some i => if cell_has s i
                   then (with_eof (with_cells s (set_nth i false (cells s))) true, Ok tt)
                   else (s, Ok tt)
       | None => (s, Ok tt)
       end.

(** [<SubprocessTransport as Transport>::close] *)
Definition close (s : StdinState) : StdinState * item unit :=
  let s1 := if stdin s then with_eof (with_stdin s false) true else s in
  let s2 := match stdin_arc s1 with
            | Some i => if cell_has s1 i
                        then with_eof (with_cells s1 (set_nth i false (cells s1))) true
                        else s1
            | None => s1
            end in
  match proc s2 with
  | None => (with_ready s2 false, Ok tt)
  | Some o =>
      let s3 := with_proc s2 None in
      match o with
      | WaitFailed => (s3, Err (ProcessErr "Failed to wait for process"))
      | Exited true => (with_ready s3 false, Ok tt)
      | Exited false => (s3, Err (ProcessErr "Claude CLI exited with non-zero status"))
      end
  end.

(** The state [connect] leaves: stdin owned directly, [ready] set. *)
Definition connected (o : WaitOutcome) : StdinState :=
  {| stdin := true; stdin_arc := None; cells := []; received := ""; eof := false;
     broken := false; proc := Some o; tready := true |}.

(** Operations on a connected transport, and the child closing its end. *)
Inductive op : StdinState -> StdinState -> Prop :=
| OpWrite d s : op s (fst (write d s))
| OpTake s : op s (fst (take_stdin_arc s))
| OpEnd s : op s (fst (end_input s))
| OpClose s : op s (fst (close s))
| OpHangUp s : op s {| stdin := stdin s; stdin_arc := stdin_arc s; cells := cells s;
                      received := received s; eof := eof s; broken := true;
                      proc := proc s; tready := tready s |}.

Inductive reachable : StdinState -> Prop :=
| ReachConnected o : reachable (connected o)
| ReachOp s s' : reachable s -> op s s' -> reachable s'.

End Stdin.

(* ------------------------------------------------------------------ *)
(** * internal/transport/subprocess.rs : find_cli (Unix)                *)
(* ------------------------------------------------------------------ *)

Module FindCli.
Import Errors Reader Connect.

(** What [find_cli] observes besides the file system: whether
    [claude --version] runs and exits successfully, the stdout of
    [which claude] when it succeeds, and the variables [HOME],
    [USERPROFILE] and [CLAUDE_CLI_PATH]. *)
Record Probe := {
  claude_version_ok : bool;
  which_output : option string;
  home_var : option string;
  userprofile_var : option string;
  cli_path_var : option string
}.

Definition is_abs (p : string) : bool :=
  match p with String c _ => Nat.eqb (nat_of_ascii c) 47 | EmptyString => false end.

Definition ends_with_slash (p : string) : bool :=
  match String.get (String.length p - 1) p with
  | Some c => Nat.eqb (nat_of_ascii c) 47
  | None => false
  end.

(** [Path::join] on Unix for a relative or absolute [rel]. *)
Definition join (base rel : string) : string :=
  if is_abs rel then rel
  else if String.eqb base "" then rel
  else if ends_with_slash base then base ++ rel
  else base ++ "/" ++ rel.

(** [path.exists() && path.is_file()] *)
Definition exists_file (fs : FileSystem) (p : string) : bool :=
  path_exists fs p && is_file fs p.

(** [HOME], else [USERPROFILE]. *)
Definition home_dir (pr : Probe) : option string :=
  match home_var pr with Some h => Some h | None => userprofile_var pr end.

(** [common_paths] on Unix-like systems. *)
Definition common_paths (pr : Probe) : list string :=
  ["/usr/local/bin/claude"; "/opt/homebrew/bin/claude"; "/usr/bin/claude"] ++
  match home_dir pr with
  | Some h => [join h ".local/bin/claude"; join h "bin/claude"]
  | None => []
  end.

Definition not_found_error : ClaudeError :=
  CliNotFound "Claude Code CLI not found. Please ensure 'claude' is in your PATH or set CLAUDE_CLI_PATH environment variable.".

(** [SubprocessTransport::find_cli] (strategies 1, 2, 4 and 5; strategy 3
    is Windows only), with the processes it starts. *)
Definition find_cli (pr : Probe) (fs : FileSystem) : list Event * item string :=
  if claude_version_ok pr then ([Spawn "claude" ["--version"] None], Ok "claude")
  else
    let ev := [Spawn "claude" ["--version"] None; Spawn "which" ["claude"] None] in
    let which_hit :=
      match which_output pr with
      | Some out => let p := Str.trim out in if exists_file fs p then Some p else None
      | None => None
      end in
    match which_hit with
    | Some p => (ev, Ok p)
    | None =>
        match find (exists_file fs) (common_paths pr) with
        | Some p => (ev, Ok p)
        | None =>
            match cli_path_var pr with
            | Some p => if exists_file fs p then (ev, Ok p) else (ev, Err not_found_error)
            | None => (ev, Err not_found_error)
            end
        end
    end.

Definition with_cli_path_var (pr : Probe) (v : option string) : Probe :=
  {| claude_version_ok := claude_version_ok pr; which_output := which_output pr;
     home_var := home_var pr; userprofile_var := userprofile_var pr; cli_path_var := v |}.

End FindCli.

(* ------------------------------------------------------------------ *)
(** * internal/pool.rs : the global pool                                *)
(* ------------------------------------------------------------------ *)

Module GlobalPool.
Import Errors Reader Pool.


(** [get_global_pool] *)
Definition get_global_pool (g : option Pool) : option Pool := g.

(** [shutdown_global_pool] *)
Definition shutdown_global_pool (g : option Pool) : option Pool := None.

End GlobalPool.

(* ------------------------------------------------------------------ *)
(** * errors.rs : Display of ErrorCategory and HttpStatus               *)
(* ------------------------------------------------------------------ *)

Module ErrorsDisplay.
Import Errors.

(** [impl Display for ErrorCategory] *)
Definition category_display (c : ErrorCategory) : string :=
  match c with
  | Network => "network"
  | Process => "process"
  | Parsing => "parsing"
  | Configuration => "configuration"
  | Validation => "validation"
  | Permission => "permission"
  | Resource => "resource"
  | Internal => "internal"
  | External => "external"
  end.

(** [impl Display for HttpStatus] *)
Definition status_display (s : HttpStatus) : string :=
  match s with
  | BadRequest => "400 Bad Request"
  | Unauthorized => "401 Unauthorized"
  | Forbidden => "403 Forbidden"
  | NotFoundStatus => "404 Not Found"
  | RequestTimeout => "408 Request Timeout"
  | Conflict => "409 Conflict"
  | UnprocessableEntity => "422 Unprocessable Entity"
  | TooManyRequests => "429 Too Many Requests"
  | InternalServerError => "500 Internal Server Error"
  | BadGateway => "502 Bad Gateway"
  | ServiceUnavailable => "503 Service Unavailable"
  | GatewayTimeout => "504 Gateway Timeout"
  end.

End ErrorsDisplay.

(* ------------------------------------------------------------------ *)
(** * subprocess.rs [build_env] and pool.rs [spawn_process]: the child  *)
(**   environment                                                      *)
(* ------------------------------------------------------------------ *)

Module ChildEnv.

(** A [HashMap<String, String>] as an association list with distinct keys. *)
Definition EnvMap := list (string * string).

(** [HashMap::get] *)
Definition env_get (m : EnvMap) (k : string) : option string :=
  match find (fun e => String.eqb (fst e) k) m with
  | Some (_, v) => Some v
  | None => None
  end.

(** [HashMap::insert]: replaces the value of an existing key. *)
Definition env_insert (k v : string) (m : EnvMap) : EnvMap :=
  (k, v) :: filter (fun e => negb (String.eqb (fst e) k)) m.

Section WithVersion.
(** [crate::version::ENTRYPOINT] and [SDK_VERSION]. *)
Variables ENTRYPOINT SDK_VERSION : string.

(** [SubprocessTransport::build_env] on [options.env] and
    [options.enable_file_checkpointing]. *)
Definition build_env (env : EnvMap) (enable_file_checkpointing : bool) : EnvMap :=
  let env1 := env_insert "CLAUDE_CODE_ENTRYPOINT" ENTRYPOINT env in
  let env2 := env_insert "CLAUDE_AGENT_SDK_VERSION" SDK_VERSION env1 in
  if enable_file_checkpointing
  then env_insert "CLAUDE_CODE_ENABLE_SDK_FILE_CHECKPOINTING" "true" env2
  else env2.

(** The environment [PooledWorker::spawn_process] passes to [envs]. *)
Definition spawn_env (env : EnvMap) : EnvMap :=
  env_insert "CLAUDE_AGENT_SDK_VERSION" SDK_VERSION
    (env_insert "CLAUDE_CODE_ENTRYPOINT" ENTRYPOINT env).

End WithVersion.

End ChildEnv.


(* ================================================================== *)
(** * Concrete scenarios                                                *)
(* ================================================================== *)

Module Scenarios.
Import Errors Reader Connect Pool.
Local Open Scope list_scope.

(** A line feed, ending every line [read_line] returns. *)
Definition nl : string := String (Ascii.ascii_of_nat 10) EmptyString.

(** A connected transport whose stdout carries a malformed line and then
    [{}]. *)
Definition two_lines_transport : TransportState :=
  {| process_running := true;
     stdout := Some [ReadOk ("{bad" ++ nl); ReadOk ("{}" ++ nl)];
     buffer_config := {| initial_size := 64; grow := fun n => 2 * n;
                         max_message_size := 1024; enable_metrics := true |};
     buffer_metrics := metrics_zero |}.

(** A connected transport whose stdout carries [{}] and then a line of
    six bytes, with a ceiling of four bytes per line. *)
Definition oversized_transport : TransportState :=
  {| process_running := true;
     stdout := Some [ReadOk ("{}" ++ nl); ReadOk ("{bad}" ++ nl); ReadOk ("{}" ++ nl)];
     buffer_config := {| initial_size := 8; grow := fun n => 2 * n;
                         max_message_size := 4; enable_metrics := true |};
     buffer_metrics := metrics_zero |}.

Definition env0 : Env :=
  {| skip_version_check := false; cli_search := None; current_dir := Some "/" |}.

Definition fs_with_work : FileSystem :=
  [("/work", NDir); ("/usr/bin/claude", NFile)].

Definition fs_without_work : FileSystem :=
  [("/usr/bin/claude", NFile)].

Definition opts_work : Options :=
  {| opt_cwd := Some "/work"; opt_cli_path := Some "/usr/bin/claude" |}.

(** A pool of at most two workers with a 60 second idle timeout. *)
Definition demo_cfg : PoolConfig :=
  {| min_size := 1; max_size := 2; idle_timeout := 60; enabled := true |}.

(** [demo_cfg] after [initialize]: worker 1 waits in the channel. *)
Definition demo_initialized : Pool := fst (initialize true (new demo_cfg)).

(** [demo_initialized] after one [acquire]: worker 1 is lent out. *)
Definition demo_pool : Pool := fst (acquire true demo_initialized).

(** Worker 1 as [initialize] creates it. *)
Definition worker1 : PooledWorker :=
  {| id := 1; last_activity := 0; healthy := true; pid := Some 1 |}.


(** A connected transport whose stdout carries [{}], then an I/O error,
    then another [{}]. *)
Definition read_error_transport : TransportState :=
  {| process_running := true;
     stdout := Some [ReadOk ("{}" ++ nl)%string; ReadErr "connection reset"; ReadOk ("{}" ++ nl)%string];
     buffer_config := {| initial_size := 64; grow := fun n => 2 * n;
                         max_message_size := 1024; enable_metrics := true |};
     buffer_metrics := metrics_zero |}.

(** No [claude] on [PATH] for [--version]; [which claude] prints
    [/usr/bin/claude]; no variables set. *)
Definition probe_which : FindCli.Probe :=
  {| FindCli.claude_version_ok := false;
     FindCli.which_output := Some ("/usr/bin/claude" ++ nl)%string;
     FindCli.home_var := None; FindCli.userprofile_var := None;
     FindCli.cli_path_var := None |}.

(** A pool asked to start three workers with room for two. *)
Definition overfull_cfg : PoolConfig :=
  {| min_size := 3; max_size := 2; idle_timeout := 60; enabled := true |}.

End Scenarios.

(* ================================================================== *)
(** * Proofs                                                            *)
(* ================================================================== *)

Module ErrorsFacts.
Import Errors.

Lemma all_categories_nodup : NoDup all_categories.
Proof.
  unfold all_categories.
  repeat constructor; simpl; intuition discriminate.
Qed.

(** C9: classification is total.  Every [ClaudeError] has one category,
    which belongs to the closed set of nine, one error code and one HTTP
    status; codes are distinct across variants and equal within one; and
    [is_retryable] holds exactly for the network, process and external
    categories. *)
Theorem error_classification_total :
  NoDup all_categories /\
  (forall e : ClaudeError,
     In (category e) all_categories /\
     (exists c s, error_code e = c /\ http_status e = s) /\
     (is_retryable e = true <->
        category e = Network \/ category e = Process \/ category e = External)) /\
  (forall e1 e2 : ClaudeError,
     error_code e1 = error_code e2 <-> variant_index e1 = variant_index e2).
Proof.
  split; [exact all_categories_nodup|].
  split.
  - intros e. split; [|split].
    + destruct e; simpl; tauto.
    + eexists; eexists; split; reflexivity.
    + destruct e; simpl; split; intro H;
        first [ tauto | discriminate
              | destruct H as [H|[H|H]]; discriminate ].
  - intros e1 e2; destruct e1, e2; simpl; split; intro H;
      first [ reflexivity | discriminate ].
Qed.

End ErrorsFacts.

Module PoolFacts.
Import Errors Reader Pool.

(** Counters of [PoolState]: [active_count] equals [total_created]. *)
Definition counters_eq (p : Pool) : Prop :=
  active_count (state p) = total_created (state p).

(** Bookkeeping of permits: lent-out guards plus free permits is the
    configured [max_size]. *)
Definition permits_inv (cfg : PoolConfig) (p : Pool) : Prop :=
  config p = cfg /\ List.length (guards p) + permits p = max_size cfg.

(** Fields an operation leaves alone. *)
Definition frame (p q : Pool) : Prop :=
  config q = config p /\ permits q = permits p /\ guards q = guards p /\
  clock q = clock p.

Definition counters_step (p q : Pool) : Prop :=
  (counters_eq p -> counters_eq q) /\
  active_count (state p) <= active_count (state q).

Lemma counters_step_refl p q : state q = state p -> counters_step p q.
Proof. intros H; unfold counters_step, counters_eq; rewrite H; auto. Qed.

Lemma counters_step_trans p q r :
  counters_step p q -> counters_step q r -> counters_step p r.
Proof. unfold counters_step; intros [H1 H2] [H3 H4]; split; auto; lia. Qed.

Lemma drop_worker_frame w p :
  frame p (drop_worker w p) /\ state (drop_worker w p) = state p.
Proof. unfold drop_worker, frame; destruct (pid w); simpl; auto. Qed.

Lemma try_send_frame w p :
  frame p (try_send w p) /\ state (try_send w p) = state p.
Proof.
  unfold try_send; destruct (Nat.ltb _ _).
  - unfold frame; simpl; auto.
  - apply drop_worker_frame.
Qed.

Lemma create_worker_frame b p :
  frame p (fst (create_worker b p)) /\
  counters_step p (fst (create_worker b p)).
Proof.
  unfold create_worker; destruct b; simpl; split.
  - unfold frame; simpl; auto.
  - unfold counters_step, counters_eq; simpl.
    split; [intros H; rewrite H; reflexivity | lia].
  - unfold frame; simpl; auto.
  - apply counters_step_refl; reflexivity.
Qed.

Lemma initialize_loop_frame k b p :
  frame p (fst (initialize_loop k b p)) /\
  counters_step p (fst (initialize_loop k b p)).
Proof.
  revert p; induction k as [|k IH]; intros p; simpl.
  - split; [unfold frame; auto | apply counters_step_refl; auto].
  - destruct (create_worker_frame b p) as [F1 C1].
    destruct (create_worker b p) as [p1 [w|e]] eqn:E; simpl in *.
    + destruct (try_send_frame w p1) as [F2 S2].
      destruct (IH (try_send w p1)) as [F3 C3].
      split.
      * destruct F1 as (a1 & b1 & c1 & d1), F2 as (a2 & b2 & c2 & d2),
          F3 as (a3 & b3 & c3 & d3).
        unfold frame; repeat split; congruence.
      * eapply counters_step_trans; [exact C1|].
        eapply counters_step_trans; [apply counters_step_refl; exact S2|exact C3].
    + split; assumption.
Qed.

Lemma length_remove_nth {A} n (l : list A) x :
  nth_error l n = Some x -> List.length (remove_nth n l) = pred (List.length l).
Proof.
  revert l; induction n as [|n IH]; intros [|y l] H; simpl in *; try discriminate.
  - reflexivity.
  - rewrite (IH l H). destruct l; simpl in *; [destruct n; discriminate|reflexivity].
Qed.

Lemma length_update_nth {A} n (f : A -> A) l :
  List.length (update_nth n f l) = List.length l.
Proof.
  revert l; induction n as [|n IH]; intros [|y l]; simpl; auto.
Qed.

(** Effect of [acquire] on the permit bookkeeping and the counters. *)
Lemma acquire_inv cfg b p :
  permits_inv cfg p ->
  permits_inv cfg (fst (acquire b p)) /\ counters_step p (fst (acquire b p)).
Proof.
  intros [Hc Hl]. unfold acquire.
  destruct (permits p) as [|k] eqn:Hp.
  - simpl. split; [split; auto; rewrite Hp; exact Hl|apply counters_step_refl; auto].
  - assert (R : exists p2 r, recycle (set_permits p k) = (p2, r) /\
                frame (set_permits p k) p2 /\ state p2 = state p).
    { unfold recycle. destruct (chan (set_permits p k)) as [|w rest].
      - eexists; eexists; split; [reflexivity|split; [unfold frame; auto|reflexivity]].
      - destruct (is_healthy w && _).
        + eexists; eexists; split; [reflexivity|].
          unfold frame; simpl; auto.
        + eexists; eexists; split; [reflexivity|].
          destruct (drop_worker_frame w (set_chan (set_permits p k) rest)) as [F S].
          destruct F as (a & b' & c & d). unfold frame; simpl in *.
          repeat split; congruence. }
    destruct R as (p2 & r & E & (F1 & F2 & F3 & F4) & S2). rewrite E.
    unfold set_permits in F1, F2, F3, F4; simpl in F1, F2, F3, F4.
    unfold set_guards, set_permits.
    destruct r as [w|].
    + simpl. split.
      * split; [rewrite F1; exact Hc|].
        simpl. rewrite length_app, F3, F2. simpl. lia.
      * apply counters_step_refl; simpl; exact S2.
    + destruct (create_worker_frame b p2) as [(G1 & G2 & G3 & G4) C].
      destruct (create_worker b p2) as [p3 [w|e]] eqn:E3; simpl in *.
      * split.
        -- split; [simpl; congruence|]. simpl. rewrite length_app, G3, G2, F3, F2.
           simpl. lia.
        -- eapply counters_step_trans; [apply counters_step_refl; exact S2|exact C].
      * split.
        -- split; [simpl; congruence|]. simpl. rewrite G3, G2, F3, F2. lia.
        -- eapply counters_step_trans; [apply counters_step_refl; exact S2|exact C].
Qed.

Lemma drop_guard_inv cfg n p :
  permits_inv cfg p ->
  permits_inv cfg (drop_guard n p) /\ state (drop_guard n p) = state p.
Proof.
  intros [Hc Hl]. unfold drop_guard.
  destruct (nth_error (guards p) n) as [w|] eqn:Hn; [|split; [split|]; auto].
  destruct (try_send_frame w (set_guards p (remove_nth n (guards p))))
    as [(a & b & c & d) S].
  set (q := try_send w (set_guards p (remove_nth n (guards p)))) in *.
  unfold set_permits; simpl.
  unfold set_guards in a, b, c; simpl in a, b, c.
  split; [split|].
  - cbn. congruence.
  - cbn. rewrite c, b. rewrite (length_remove_nth _ _ _ Hn).
    assert (n < List.length (guards p))
      by (apply nth_error_Some; rewrite Hn; discriminate). lia.
  - cbn. unfold set_guards in S; exact S.
Qed.

Lemma step_inv cfg p q :
  permits_inv cfg p -> step p q -> permits_inv cfg q /\ counters_step p q.
Proof.
  intros H Hs; destruct Hs as [b p|n p|n p|b p|d p].
  - apply acquire_inv; exact H.
  - destruct (drop_guard_inv cfg n p H) as [H1 H2].
    split; [exact H1|apply counters_step_refl; exact H2].
  - destruct H as [Hc Hl]. unfold permits_inv, guard_io, set_guards; cbn.
    split; [split; [exact Hc|rewrite length_update_nth; exact Hl]|].
    apply counters_step_refl; reflexivity.
  - destruct (initialize_loop_frame (min_size (config p)) b p) as [(a & b' & c & d) C].
    unfold initialize. destruct H as [Hc Hl].
    split; [split; [congruence|rewrite c, b'; exact Hl]|exact C].
  - destruct H as [Hc Hl]; unfold permits_inv, set_clock; cbn.
    split; [split; auto|apply counters_step_refl; reflexivity].
Qed.

Lemma reachable_inv cfg p :
  reachable cfg p -> permits_inv cfg p /\ counters_eq p.
Proof.
  induction 1 as [|p q Hr IH Hs].
  - split; [split; simpl; auto|reflexivity].
  - destruct IH as [I C]. destruct (step_inv cfg p q I Hs) as [I' [C' _]].
    split; auto.
Qed.

End PoolFacts.

Module PoolTheorems.
Import Errors Reader Pool PoolFacts Scenarios.

Lemma demo_pool_reachable : reachable demo_cfg demo_pool.
Proof.
  eapply ReachStep; [eapply ReachStep; [apply ReachNew | apply StepInit] | apply StepAcquire].
Qed.

Lemma acquire_no_permit b p :
  permits p = 0 -> acquire b p = (p, Err timeout_error).
Proof. intros H; unfold acquire; rewrite H; reflexivity. Qed.

Lemma initialize_loop_permits k b p :
  permits (fst (initialize_loop k b p)) = permits p.
Proof. destruct (initialize_loop_frame k b p) as [(_ & H & _) _]; exact H. Qed.

(** C6: with [max_size = N], lent-out guards and free permits always add up
    to [N], so at most [N] guards are outstanding; while [N] are out,
    [acquire] fails with the connection error [timeout_error] (not the
    spawn failure [spawn_error]) and leaves the pool as it was; and the only
    operation that frees a permit is dropping a guard. *)
Theorem pool_capacity_bound cfg p :
  reachable cfg p ->
  List.length (guards p) + permits p = max_size cfg /\
  List.length (guards p) <= max_size cfg /\
  (List.length (guards p) = max_size cfg ->
     forall b, acquire b p = (p, Err timeout_error)) /\
  (forall q, step p q -> permits p = 0 -> 0 < permits q ->
     exists n, q = drop_guard n p) /\
  timeout_error <> spawn_error /\
  category timeout_error <> category spawn_error.
Proof.
  intros Hr. destruct (reachable_inv cfg p Hr) as [[Hc Hl] _].
  split; [exact Hl|]. split; [lia|]. split.
  { intros Hn b. apply acquire_no_permit. lia. }
  split.
  { intros q Hs H0 Hq. destruct Hs as [b p|n p|n p|b p|d p].
    - rewrite acquire_no_permit in Hq by exact H0. simpl in Hq. lia.
    - exists n; reflexivity.
    - unfold guard_io, set_guards in Hq; cbn in Hq. lia.
    - unfold initialize in Hq. rewrite initialize_loop_permits in Hq. lia.
    - unfold set_clock in Hq; cbn in Hq. lia. }
  split; [unfold timeout_error, spawn_error; discriminate|].
  simpl; discriminate.
Qed.


(** C6 witness: the pool of [demo_cfg] with one worker lent out. *)
Lemma pool_capacity_bound_witness :
  reachable demo_cfg demo_pool /\
  List.length (guards demo_pool) + permits demo_pool = 2 /\
  List.length (guards demo_pool) = 1.
Proof.
  split; [exact demo_pool_reachable|].
  split; [exact (proj1 (pool_capacity_bound demo_cfg demo_pool demo_pool_reachable))|].
  vm_compute; reflexivity.
Defined.


End PoolTheorems.

Module PoolReuse.
Import Errors Reader Pool PoolFacts PoolTheorems Scenarios.

Lemma idle_false now w t :
  now - last_activity w <= t -> is_idle_timeout now w t = false.
Proof. intros H; unfold is_idle_timeout; apply Nat.ltb_ge; exact H. Qed.

Lemma drop_guard_permits n p w :
  nth_error (guards p) n = Some w ->
  exists k, permits (drop_guard n p) = S k.
Proof.
  intros Hn. unfold drop_guard. rewrite Hn. unfold set_permits; cbn. eauto.
Qed.

(** After a drop, [acquire] either hands out a worker or, when it has to
    spawn one, reports the spawn failure; it never times out. *)
Lemma acquire_with_permit b p k :
  permits p = S k ->
  (exists q w, acquire b p = (q, Ok w)) \/
  (b = false /\ snd (acquire b p) = Err spawn_error).
Proof.
  intros Hp. unfold acquire. rewrite Hp.
  destruct (recycle (set_permits p k)) as [p2 [w|]].
  - left; eauto.
  - destruct b; unfold create_worker.
    + left; eauto.
    + right; split; reflexivity.
Qed.

(** The [min_size = 1, max_size = 1] scenario: [initialize], then two
    acquire/drop cycles [d1] and [d2] seconds apart, within the idle
    timeout [t]. *)
Lemma reuse_scenario :
  (forall t d1 d2, d1 + d2 <= t ->
   let c := {| min_size := 1; max_size := 1; idle_timeout := t; enabled := true |} in
   let p0 := fst (initialize true (new c)) in
   let a1 := acquire true (set_clock p0 (clock p0 + d1)) in
   let p1 := drop_guard 0 (fst a1) in
   let a2 := acquire true (set_clock p1 (clock p1 + d2)) in
   exists w1 w2, snd a1 = Ok w1 /\ snd a2 = Ok w2 /\ id w1 = 1 /\ id w2 = 1).
Proof.
  intros t d1 d2 Hd c p0 a1 p1 a2.
  assert (H1 : is_idle_timeout d1 {| id := 1; last_activity := 0; healthy := true; pid := Some 1 |} t = false)
    by (apply idle_false; cbn; lia).
  assert (H2 : is_idle_timeout (d1 + d2) {| id := 1; last_activity := 0; healthy := true; pid := Some 1 |} t = false)
    by (apply idle_false; cbn; lia).
  subst c p0 a1 p1 a2.
  unfold acquire, initialize, new, set_clock; cbn -[is_idle_timeout].
  unfold recycle; cbn -[is_idle_timeout]. rewrite H1. cbn -[is_idle_timeout].
  unfold drop_guard, try_send; cbn -[is_idle_timeout].
  rewrite H2. cbn.
  exists {| id := 1; last_activity := 0; healthy := true; pid := Some 1 |}.
  exists {| id := 1; last_activity := 0; healthy := true; pid := Some 1 |}.
  repeat split.
Qed.

(** C7: dropping a lent-out guard of a reachable pool makes the next
    [acquire] succeed instead of timing out (it hands out a worker whenever
    it does not have to spawn one, or the spawn succeeds); when the return
    channel was empty and the worker is still healthy and within its idle
    timeout, the next [acquire] hands out that same worker.  For
    [min_size = 1, max_size = 1], after [initialize] two acquire/drop cycles
    within the idle timeout both hand out worker 1. *)
Theorem guard_drop_returns_worker cfg p n w :
  reachable cfg p ->
  nth_error (guards p) n = Some w ->
  (forall b, snd (acquire b (drop_guard n p)) <> Err timeout_error) /\
  (exists q w', acquire true (drop_guard n p) = (q, Ok w')) /\
  (chan p = [] -> is_healthy w = true ->
   is_idle_timeout (clock p) w (idle_timeout cfg) = false ->
   forall b, exists q, acquire b (drop_guard n p) = (q, Ok w)) /\
  (forall t d1 d2, d1 + d2 <= t ->
   let c := {| min_size := 1; max_size := 1; idle_timeout := t; enabled := true |} in
   let p0 := fst (initialize true (new c)) in
   let a1 := acquire true (set_clock p0 (clock p0 + d1)) in
   let p1 := drop_guard 0 (fst a1) in
   let a2 := acquire true (set_clock p1 (clock p1 + d2)) in
   exists w1 w2, snd a1 = Ok w1 /\ snd a2 = Ok w2 /\ id w1 = 1 /\ id w2 = 1).
Proof.
  intros Hr Hn.
  destruct (reachable_inv cfg p Hr) as [[Hc Hl] _].
  destruct (drop_guard_permits n p w Hn) as [k Hk].
  split.
  { intros b. destruct (acquire_with_permit b _ k Hk) as [(q & w' & E)|[_ E]];
      rewrite ?E; simpl; unfold timeout_error, spawn_error; discriminate. }
  split.
  { destruct (acquire_with_permit true _ k Hk) as [E|[E _]]; [exact E|discriminate]. }
  split.
  { intros Hch Hh Hi b.
    assert (Hlen : n < List.length (guards p))
      by (apply nth_error_Some; rewrite Hn; discriminate).
    assert (Hch' : chan (drop_guard n p) = [w]).
    { unfold drop_guard. rewrite Hn. unfold try_send, set_guards, set_permits; cbn.
      rewrite Hch. rewrite Hc. cbn.
      destruct (max_size cfg) eqn:Hm; [lia|]. reflexivity. }
    assert (Hclk : clock (drop_guard n p) = clock p).
    { unfold drop_guard. rewrite Hn.
      destruct (try_send_frame w (set_guards p (remove_nth n (guards p))))
        as [(_ & _ & _ & D) _].
      unfold set_permits; cbn. rewrite D. reflexivity. }
    assert (Hcfg : config (drop_guard n p) = cfg).
    { unfold drop_guard. rewrite Hn.
      destruct (try_send_frame w (set_guards p (remove_nth n (guards p))))
        as [(A & _ & _ & _) _].
      unfold set_permits; cbn. rewrite A. exact Hc. }
    unfold acquire. rewrite Hk. unfold recycle, set_permits at 1; cbn.
    rewrite Hch'. cbn. rewrite Hclk, Hcfg, Hh, Hi. cbn. eauto. }
  exact reuse_scenario.
Qed.


(** C7 witness: dropping the guard of worker 1 in [demo_pool] makes the
    next [acquire] hand out worker 1 again. *)
Lemma guard_drop_returns_worker_witness :
  reachable demo_cfg demo_pool /\
  nth_error (guards demo_pool) 0 = Some worker1 /\
  exists q, acquire true (drop_guard 0 demo_pool) = (q, Ok worker1).
Proof.
  assert (Hn : nth_error (guards demo_pool) 0 = Some worker1) by (vm_compute; reflexivity).
  split; [exact demo_pool_reachable|]. split; [exact Hn|].
  destruct (guard_drop_returns_worker demo_cfg demo_pool 0 worker1 demo_pool_reachable Hn)
    as [_ [_ [H _]]].
  apply H; vm_compute; reflexivity.
Defined.


End PoolReuse.

Module ReaderTheorems.
Import Errors Reader.
Local Open Scope list_scope.

(** A read event that lets the loop go on: a non-empty chunk within the
    ceiling. *)
Lemma read_messages_loop_app V f cfg pre c rest cap m :
  Forall (passes cfg) pre ->
  max_message_size cfg < String.length c ->
  read_messages_loop V f cfg cap m (pre ++ ReadOk c :: rest) =
  (fst (read_messages_loop V f cfg cap m pre) ++ [Err size_exceeded],
   snd (read_messages_loop V f cfg cap m pre)).
Proof.
  intros Hpre Hc. revert cap m.
  induction Hpre as [|ev pre Hev Hpre IH]; intros cap m.
  - simpl. replace (Nat.eqb (String.length c) 0) with false
      by (symmetry; apply Nat.eqb_neq; lia).
    replace (Nat.ltb (max_message_size cfg) (String.length c)) with true
      by (symmetry; apply Nat.ltb_lt; lia).
    reflexivity.
  - destruct ev as [c0|e]; [|contradiction]. simpl in Hev.
    simpl.
    replace (Nat.eqb (String.length c0) 0) with false
      by (symmetry; apply Nat.eqb_neq; lia).
    replace (Nat.ltb (max_message_size cfg) (String.length c0)) with false
      by (symmetry; apply Nat.ltb_ge; lia).
    destruct (track cfg cap m (String.length c0)) as [m' cap'].
    destruct (Str.is_empty (Str.trim c0)); [apply IH|].
    destruct (f (Str.trim c0)); rewrite IH;
      destruct (read_messages_loop V f cfg cap' m' pre); reflexivity.
Qed.

Lemma read_raw_loop_app cfg pre c rest cap m :
  Forall (passes cfg) pre ->
  max_message_size cfg < String.length c ->
  read_raw_loop cfg cap m (pre ++ ReadOk c :: rest) =
  (fst (read_raw_loop cfg cap m pre) ++ [Err size_exceeded],
   snd (read_raw_loop cfg cap m pre)).
Proof.
  intros Hpre Hc. revert cap m.
  induction Hpre as [|ev pre Hev Hpre IH]; intros cap m.
  - simpl. replace (Nat.eqb (String.length c) 0) with false
      by (symmetry; apply Nat.eqb_neq; lia).
    replace (Nat.ltb (max_message_size cfg) (String.length c)) with true
      by (symmetry; apply Nat.ltb_lt; lia).
    reflexivity.
  - destruct ev as [c0|e]; [|contradiction]. simpl in Hev.
    simpl.
    replace (Nat.eqb (String.length c0) 0) with false
      by (symmetry; apply Nat.eqb_neq; lia).
    replace (Nat.ltb (max_message_size cfg) (String.length c0)) with false
      by (symmetry; apply Nat.ltb_ge; lia).
    destruct (track cfg cap m (String.length c0)) as [m' cap'].
    destruct (Str.is_empty (Str.trim c0)); [apply IH|].
    rewrite IH. destruct (read_raw_loop cfg cap' m' pre); reflexivity.
Qed.

(** Chunks within the ceiling (and no I/O error) never produce the
    size-exceeded error, whatever their total size. *)
Lemma read_err_not_size {T} e :
  is_size_exceeded (Err (T:=T) (Transport ("Failed to read line: " ++ e))) = false.
Proof. reflexivity. Qed.

Lemma read_messages_loop_no_size V f cfg input cap m :
  Forall (within cfg) input ->
  forallb (fun x => negb (is_size_exceeded x))
    (fst (read_messages_loop V f cfg cap m input)) = true.
Proof.
  intros H. revert cap m.
  induction H as [|ev input Hev H IH]; intros cap m; [reflexivity|].
  destruct ev as [c|e]; simpl; [|reflexivity].
  simpl in Hev.
  destruct (Nat.eqb (String.length c) 0); [reflexivity|].
  replace (Nat.ltb (max_message_size cfg) (String.length c)) with false
    by (symmetry; apply Nat.ltb_ge; lia).
  destruct (track cfg cap m (String.length c)) as [m' cap'].
  destruct (Str.is_empty (Str.trim c)); [apply IH|].
  specialize (IH cap' m').
  destruct (f (Str.trim c));
    destruct (read_messages_loop V f cfg cap' m' input) as [xs mf]; exact IH.
Qed.

Lemma read_raw_loop_no_size cfg input cap m :
  Forall (within cfg) input ->
  forallb (fun x => negb (is_size_exceeded x))
    (fst (read_raw_loop cfg cap m input)) = true.
Proof.
  intros H. revert cap m.
  induction H as [|ev input Hev H IH]; intros cap m; [reflexivity|].
  destruct ev as [c|e]; simpl; [|reflexivity].
  simpl in Hev.
  destruct (Nat.eqb (String.length c) 0); [reflexivity|].
  replace (Nat.ltb (max_message_size cfg) (String.length c)) with false
    by (symmetry; apply Nat.ltb_ge; lia).
  destruct (track cfg cap m (String.length c)) as [m' cap'].
  destruct (Str.is_empty (Str.trim c)); [apply IH|].
  specialize (IH cap' m').
  destruct (read_raw_loop cfg cap' m' input) as [xs mf]; exact IH.
Qed.

End ReaderTheorems.

Module ReaderClaims.
Import Errors Reader ReaderTheorems Scenarios.
Local Open Scope list_scope.

(** C4: when the stream reaches a line longer than [max_message_size]
    (after any prefix of lines it accepted), [read_messages] and
    [read_raw_messages] yield exactly the items of the prefix followed by
    one size-exceeded transport error and end, and the buffer metrics are
    those left by the prefix: the oversized line is not counted, measured
    or resized for.  The check is per line: a stream whose lines are each
    within the ceiling never yields the size-exceeded error, whatever its
    total size. *)
Theorem size_ceiling_per_line :
  (forall V (f : string -> option V) t pre c rest,
     stdout t = Some (pre ++ ReadOk c :: rest) ->
     Forall (passes (buffer_config t)) pre ->
     max_message_size (buffer_config t) < String.length c ->
     let cfg := buffer_config t in
     let i0 := initial_size cfg in
     fst (read_messages f t) =
       fst (read_messages_loop V f cfg i0 (buffer_metrics t) pre) ++ [Err size_exceeded] /\
     buffer_metrics (snd (read_messages f t)) =
       snd (read_messages_loop V f cfg i0 (buffer_metrics t) pre) /\
     fst (read_raw_messages t) =
       fst (read_raw_loop cfg i0 (buffer_metrics t) pre) ++ [Err size_exceeded] /\
     buffer_metrics (snd (read_raw_messages t)) =
       snd (read_raw_loop cfg i0 (buffer_metrics t) pre)) /\
  (forall V (f : string -> option V) t input,
     stdout t = Some input ->
     Forall (within (buffer_config t)) input ->
     forallb (fun x => negb (is_size_exceeded x)) (fst (read_messages f t)) = true /\
     forallb (fun x => negb (is_size_exceeded x)) (fst (read_raw_messages t)) = true).
Proof.
  split.
  - intros V f t pre c rest Hs Hpre Hc cfg i0.
    unfold read_messages, read_raw_messages. rewrite Hs.
    rewrite (read_messages_loop_app V f _ pre c rest _ _ Hpre Hc).
    rewrite (read_raw_loop_app _ pre c rest _ _ Hpre Hc).
    cbn. repeat split.
  - intros V f t input Hs Hw.
    unfold read_messages, read_raw_messages. rewrite Hs.
    pose proof (read_messages_loop_no_size V f (buffer_config t) input
                  (initial_size (buffer_config t)) (buffer_metrics t) Hw) as H1.
    pose proof (read_raw_loop_no_size (buffer_config t) input
                  (initial_size (buffer_config t)) (buffer_metrics t) Hw) as H2.
    destruct (read_messages_loop _ _ _ _ _ _) as [xs m].
    destruct (read_raw_loop _ _ _ _) as [ys m']. split; assumption.
Qed.

(** C4 witness: on [oversized_transport] the six-byte line ends the stream
    after the item of [{}] with the size-exceeded error; the last line is
    never read. *)
Lemma size_ceiling_per_line_witness :
  fst (read_messages Parser.parse_json oversized_transport) =
    fst (read_messages_loop _ Parser.parse_json (buffer_config oversized_transport) 8
           (buffer_metrics oversized_transport) [ReadOk ("{}" ++ nl)%string]) ++ [Err size_exceeded] /\
  fst (read_messages Parser.parse_json oversized_transport) =
    [Ok (Parser.JObj []); Err size_exceeded].
Proof.
  assert (Hpre : Forall (passes (buffer_config oversized_transport)) [ReadOk ("{}" ++ nl)%string])
    by (constructor; [cbn; lia|constructor]).
  assert (Hc : max_message_size (buffer_config oversized_transport) < String.length ("{bad}" ++ nl)%string)
    by (cbn; lia).
  split.
  - exact (proj1 (proj1 size_ceiling_per_line _ Parser.parse_json oversized_transport
            [ReadOk ("{}" ++ nl)%string] ("{bad}" ++ nl)%string [ReadOk ("{}" ++ nl)%string] eq_refl Hpre Hc)).
  - vm_compute; reflexivity.
Defined.

(** C3 (as the code behaves): a non-blank line within the ceiling that
    fails JSON decoding yields one [JsonDecode] error carrying the trimmed
    line, after which the loop goes on reading the following lines; reading
    never changes the process. *)
Theorem decode_failure_continues_stream :
  (forall V (f : string -> option V) cfg cap m c rest,
     0 < String.length c <= max_message_size cfg ->
     Str.is_empty (Str.trim c) = false ->
     f (Str.trim c) = None ->
     let (m', cap') := track cfg cap m (String.length c) in
     read_messages_loop V f cfg cap m (ReadOk c :: rest) =
       (Err (JsonDecode "Failed to parse JSON" (Str.trim c))
          :: fst (read_messages_loop V f cfg cap' m' rest),
        snd (read_messages_loop V f cfg cap' m' rest))) /\
  (forall V (f : string -> option V) t,
     process_running (snd (read_messages f t)) = process_running t /\
     process_running (snd (read_raw_messages t)) = process_running t).
Proof.
  split.
  - intros V f cfg cap m c rest Hc He Hf. simpl.
    replace (Nat.eqb (String.length c) 0) with false
      by (symmetry; apply Nat.eqb_neq; lia).
    replace (Nat.ltb (max_message_size cfg) (String.length c)) with false
      by (symmetry; apply Nat.ltb_ge; lia).
    destruct (track cfg cap m (String.length c)) as [m' cap'].
    rewrite He, Hf. destruct (read_messages_loop V f cfg cap' m' rest); reflexivity.
  - intros V f t. unfold read_messages, read_raw_messages.
    destruct (stdout t); [|split; reflexivity].
    destruct (read_messages_loop _ _ _ _ _ _); destruct (read_raw_loop _ _ _ _).
    split; reflexivity.
Qed.

(** C3 witness: the line [{bad] of [two_lines_transport] yields its decode
    error and the loop reads on. *)
Lemma decode_failure_continues_stream_witness :
  let cfg := buffer_config two_lines_transport in
  let (m', cap') := track cfg 64 metrics_zero (String.length ("{bad" ++ nl)%string) in
  read_messages_loop _ Parser.parse_json cfg 64 metrics_zero
    [ReadOk ("{bad" ++ nl)%string; ReadOk ("{}" ++ nl)%string] =
    (Err (JsonDecode "Failed to parse JSON" (Str.trim ("{bad" ++ nl)%string))
       :: fst (read_messages_loop _ Parser.parse_json cfg cap' m' [ReadOk ("{}" ++ nl)%string]),
     snd (read_messages_loop _ Parser.parse_json cfg cap' m' [ReadOk ("{}" ++ nl)%string])).
Proof.
  intros cfg.
  apply (proj1 decode_failure_continues_stream _ Parser.parse_json cfg 64 metrics_zero
           ("{bad" ++ nl)%string [ReadOk ("{}" ++ nl)%string]);
    vm_compute; first [reflexivity | lia].
Defined.

(** C3 counterexample: with [serde_json::from_str] modelled by
    [Parser.parse_json], the stream yields the decode error for [{bad] and
    then still yields [{}]. *)
Lemma decode_failure_does_not_end_stream :
  fst (read_messages Parser.parse_json two_lines_transport) =
    [Err (JsonDecode "Failed to parse JSON" "{bad"); Ok (Parser.JObj [])] /\
  process_running (snd (read_messages Parser.parse_json two_lines_transport)) = true.
Proof. split; vm_compute; reflexivity. Qed.

End ReaderClaims.

Module ConnectClaims.
Import Errors Reader Connect Scenarios.
Local Open Scope list_scope.

(** C5 (as the code behaves): a working directory that is missing or not
    a directory is rejected by [SubprocessTransport::new] with
    [InvalidConfig], before the CLI lookup and without starting any
    process; no transport is built, so [connect] is never reached.
    [connect] itself does not look at the working directory: on a
    transport whose [cwd] is not a directory it fails with the version
    check's [Connection] error when that check runs and the CLI cannot be
    run, and otherwise with the spawn's [Process] error. *)
Theorem cwd_rejected_by_new env fs0 fs1 o c :
  opt_cwd o = Some c ->
  is_dir fs0 c = false ->
  (exists msg, new env fs0 o = ([], Err (InvalidConfig msg))) /\
  (exists msg, new_then_connect env fs0 fs1 o = ([], Err (InvalidConfig msg))) /\
  (forall t, cwd t = Some c ->
     snd (connect env fs0 t) =
       if negb (skip_version_check env) && negb (is_file fs0 (cli_path t))
       then Err (Connection "Failed to get Claude version")
       else Err (ProcessErr "Failed to spawn Claude CLI process")).
Proof.
  intros Ho Hd.
  assert (H : exists msg, new env fs0 o = ([], Err (InvalidConfig msg))).
  { unfold new. rewrite Ho, Hd. destruct (path_exists fs0 c); cbn; eauto. }
  split; [exact H|]. split.
  - destruct H as [msg E]. exists msg. unfold new_then_connect. rewrite E. reflexivity.
  - intros t Ht. unfold connect, check_claude_version, spawn_ok. rewrite Ht, Hd.
    destruct (skip_version_check env), (is_file fs0 (cli_path t)); reflexivity.
Qed.

(** C5 witness: [/work] missing on a file system holding only the CLI. *)
Lemma cwd_rejected_by_new_witness :
  exists msg, new_then_connect env0 fs_without_work fs_with_work opts_work =
    ([], Err (InvalidConfig msg)).
Proof.
  exact (proj1 (proj2 (cwd_rejected_by_new env0 fs_without_work fs_with_work opts_work "/work"
                  eq_refl eq_refl))).
Defined.

(** C5 counterexample: [connect] itself does not check the working
    directory.  A transport built while [/work] existed is connected after
    [/work] is gone: [connect] runs the version check and attempts the
    spawn, and fails with a process error, not [InvalidConfig].  On the
    file system without [/work] the [InvalidConfig] comes from [new]. *)
Lemma connect_does_not_check_cwd :
  path_exists fs_without_work "/work" = false /\
  new_then_connect env0 fs_with_work fs_without_work opts_work =
    ([Spawn "/usr/bin/claude" ["--version"] None;
      Spawn "/usr/bin/claude" ["--output-format"; "stream-json"] (Some "/work")],
     Err (ProcessErr "Failed to spawn Claude CLI process")) /\
  new env0 fs_without_work opts_work =
    ([], Err (InvalidConfig "Working directory does not exist")).
Proof. repeat split; vm_compute; reflexivity. Qed.

End ConnectClaims.

Module DetectClaims.
Import Parser.






End DetectClaims.

Module ReaderExtra.
Import Errors Reader BufferMetrics Scenarios.
Local Open Scope list_scope.

Lemma read_loops_agree V f cfg input : forall cap m,
  fst (read_messages_loop V f cfg cap m input) =
    map (decode_item f) (fst (read_raw_loop cfg cap m input)) /\
  snd (read_messages_loop V f cfg cap m input) = snd (read_raw_loop cfg cap m input).
Proof.
  induction input as [|[c|e] rest IH]; intros cap m; simpl; auto.
  destruct (Nat.eqb (String.length c) 0); [simpl; auto|].
  destruct (Nat.ltb (max_message_size cfg) (String.length c)); [simpl; auto|].
  destruct (track cfg cap m (String.length c)) as [m' cap'].
  destruct (Str.is_empty (Str.trim c)); [apply IH|].
  destruct (IH cap' m') as [H1 H2].
  destruct (read_messages_loop V f cfg cap' m' rest) as [xs mf].
  destruct (read_raw_loop cfg cap' m' rest) as [ys mg]. simpl in *.
  unfold decode_item at 1.
  destruct (f (Str.trim c)); simpl; rewrite H1, H2; auto.
Qed.

Lemma read_messages_raw V (f : string -> option V) t :
  fst (read_messages f t) = map (decode_item f) (fst (read_raw_messages t)) /\
  snd (read_messages f t) = snd (read_raw_messages t).
Proof.
  unfold read_messages, read_raw_messages.
  destruct (stdout t) as [input|]; [|auto].
  destruct (read_loops_agree V f (buffer_config t) input
              (initial_size (buffer_config t)) (buffer_metrics t)) as [H1 H2].
  destruct (read_messages_loop _ _ _ _ _ _) as [xs m].
  destruct (read_raw_loop _ _ _ _) as [ys m']. simpl in *. subst. auto.
Qed.

(** [read_messages] is [read_raw_messages] followed by decoding each line:
    it yields exactly the raw stream's items with every line replaced by
    its decoded value or its [JsonDecode] error (errors pass through), and
    both leave the same buffer metrics. *)
Theorem read_messages_is_decoded_raw V (f : string -> option V) t :
  fst (read_messages f t) = map (decode_item f) (fst (read_raw_messages t)) /\
  snd (read_messages f t) = snd (read_raw_messages t).
Proof. exact (read_messages_raw V f t). Qed.

Lemma fold_max_init a b l :
  fold_right Nat.max (Nat.max a b) l = Nat.max b (fold_right Nat.max a l).
Proof. induction l as [|x l IH]; simpl; [lia|rewrite IH; lia]. Qed.

Lemma raw_loop_metrics_disabled cfg input : forall cap m,
  enable_metrics cfg = false -> snd (read_raw_loop cfg cap m input) = m.
Proof.
  induction input as [|[c|e] rest IH]; intros cap m Hd; simpl; auto.
  destruct (Nat.eqb (String.length c) 0); [reflexivity|].
  destruct (Nat.ltb (max_message_size cfg) (String.length c)); [reflexivity|].
  unfold track; rewrite Hd.
  destruct (Str.is_empty (Str.trim c)); [apply IH; exact Hd|].
  specialize (IH cap m Hd). destruct (read_raw_loop cfg cap m rest); exact IH.
Qed.

Lemma wrapping_add_small a b :
  (N.of_nat a + N.of_nat b < usize_modulus)%N -> wrapping_add a b = a + b.
Proof.
  intros H. unfold wrapping_add. rewrite N.mod_small by exact H.
  rewrite <- Nat2N.inj_add. apply Nat2N.id.
Qed.

Lemma raw_loop_metrics_enabled cfg input : forall cap m,
  Forall (passes cfg) input -> enable_metrics cfg = true ->
  (N.of_nat (message_count m + List.length input) < usize_modulus)%N ->
  (N.of_nat (total_bytes m + list_sum (map line_bytes input)) < usize_modulus)%N ->
  (N.of_nat (resize_count m + List.length input) < usize_modulus)%N ->
  let m' := snd (read_raw_loop cfg cap m input) in
  message_count m' = message_count m + List.length input /\
  total_bytes m' = total_bytes m + list_sum (map line_bytes input) /\
  peak_size m' = fold_right Nat.max (peak_size m) (map line_bytes input) /\
  resize_count m <= resize_count m' <= resize_count m + List.length input.
Proof.
  induction input as [|ev rest IH]; intros cap m Hp He Nc Nt Nr; simpl.
  - repeat split; lia.
  - inversion Hp as [|ev' rest' Hev Hrest]; subst.
    destruct ev as [c|e]; [|contradiction]. simpl in Hev.
    cbn [List.length map list_sum fold_right line_bytes] in Nc, Nt, Nr.
    replace (Nat.eqb (String.length c) 0) with false by (symmetry; apply Nat.eqb_neq; lia).
    replace (Nat.ltb (max_message_size cfg) (String.length c)) with false
      by (symmetry; apply Nat.ltb_ge; lia).
    assert (T : exists cap', track cfg cap m (String.length c) =
                  (if Nat.ltb cap (String.length c)
                   then inc_resize (record_line m (String.length c))
                   else record_line m (String.length c), cap')).
    { unfold track; rewrite He. destruct (Nat.ltb cap (String.length c)); eauto. }
    destruct T as [cap' T]. rewrite T.
    set (m1 := if Nat.ltb cap (String.length c)
               then inc_resize (record_line m (String.length c))
               else record_line m (String.length c)).
    assert (M : message_count m1 = S (message_count m) /\
                total_bytes m1 = total_bytes m + String.length c /\
                peak_size m1 = Nat.max (peak_size m) (String.length c) /\
                resize_count m <= resize_count m1 <= S (resize_count m)).
    { subst m1. unfold inc_resize, record_line.
      destruct (Nat.ltb cap (String.length c)); cbn [message_count total_bytes peak_size resize_count];
        rewrite ?wrapping_add_small by lia; repeat split; lia. }
    destruct M as (M1 & M2 & M3 & M4).
    assert (Nc1 : (N.of_nat (message_count m1 + List.length rest) < usize_modulus)%N)
      by (rewrite M1; lia).
    assert (Nt1 : (N.of_nat (total_bytes m1 + list_sum (map line_bytes rest)) < usize_modulus)%N)
      by (unfold list_sum in *; rewrite M2; lia).
    assert (Nr1 : (N.of_nat (resize_count m1 + List.length rest) < usize_modulus)%N) by lia.
    destruct (IH cap' m1 Hrest He Nc1 Nt1 Nr1) as (A & B & C & D).
    assert (G : snd (if Str.is_empty (Str.trim c) then read_raw_loop cfg cap' m1 rest
                     else let (xs, mf) := read_raw_loop cfg cap' m1 rest in
                          (Ok (Str.trim c) :: xs, mf)) = snd (read_raw_loop cfg cap' m1 rest)).
    { destruct (Str.is_empty (Str.trim c)); [reflexivity|].
      destruct (read_raw_loop cfg cap' m1 rest); reflexivity. }
    rewrite G.
    rewrite A, B, C, M1, M2, M3. rewrite fold_max_init. cbn [line_bytes]. repeat split; lia.
Qed.

(** Buffer metrics of a read.  With [enable_metrics], a stream of lines
    each non-empty and within the ceiling adds one to [message_count] and
    its byte length to [total_bytes] for every line, whitespace-only lines
    (which yield no item) included; [peak_size] becomes the maximum of the
    old peak and the line lengths; and [resize_count] grows by at most one
    per line, as long as none of the three [usize] counters passes
    [usize::MAX] (they wrap around in the code).  Without [enable_metrics]
    a read leaves the metrics as they were, whatever it reads.  The same
    holds for [read_messages]. *)
Theorem read_metrics_accounting V (f : string -> option V) t input :
  stdout t = Some input ->
  (Forall (passes (buffer_config t)) input -> enable_metrics (buffer_config t) = true ->
   let m := buffer_metrics t in
   (N.of_nat (message_count m + List.length input) < usize_modulus)%N ->
   (N.of_nat (total_bytes m + list_sum (map line_bytes input)) < usize_modulus)%N ->
   (N.of_nat (resize_count m + List.length input) < usize_modulus)%N ->
   let m' := buffer_metrics (snd (read_raw_messages t)) in
   message_count m' = message_count m + List.length input /\
   total_bytes m' = total_bytes m + list_sum (map line_bytes input) /\
   peak_size m' = fold_right Nat.max (peak_size m) (map line_bytes input) /\
   resize_count m <= resize_count m' <= resize_count m + List.length input) /\
  (enable_metrics (buffer_config t) = false ->
   buffer_metrics (snd (read_raw_messages t)) = buffer_metrics t) /\
  buffer_metrics (snd (read_messages f t)) = buffer_metrics (snd (read_raw_messages t)).
Proof.
  intros Hs.
  assert (E : buffer_metrics (snd (read_raw_messages t)) =
              snd (read_raw_loop (buffer_config t) (initial_size (buffer_config t))
                     (buffer_metrics t) input)).
  { unfold read_raw_messages. rewrite Hs. destruct (read_raw_loop _ _ _ _); reflexivity. }
  split; [|split].
  - intros Hp He. cbv zeta. intros Nc Nt Nr. rewrite E.
    apply raw_loop_metrics_enabled; assumption.
  - intros Hd. rewrite E. apply raw_loop_metrics_disabled; exact Hd.
  - rewrite (proj2 (read_messages_raw V f t)). reflexivity.
Qed.

(** Witness: reading [two_lines_transport] (lines of 5 and 3 bytes, the
    first malformed) counts two messages and 8 bytes. *)
Lemma read_metrics_accounting_witness :
  stdout two_lines_transport = Some [ReadOk ("{bad" ++ nl)%string; ReadOk ("{}" ++ nl)%string] /\
  message_count (buffer_metrics (snd (read_raw_messages two_lines_transport))) = 2 /\
  total_bytes (buffer_metrics (snd (read_raw_messages two_lines_transport))) = 8.
Proof.
  assert (Hs : stdout two_lines_transport =
               Some [ReadOk ("{bad" ++ nl)%string; ReadOk ("{}" ++ nl)%string]) by reflexivity.
  assert (Hp : Forall (passes (buffer_config two_lines_transport))
                 [ReadOk ("{bad" ++ nl)%string; ReadOk ("{}" ++ nl)%string])
    by (repeat constructor; cbn; lia).
  destruct (proj1 (read_metrics_accounting _ Parser.parse_json two_lines_transport _ Hs) Hp eq_refl
              ltac:(vm_compute; reflexivity) ltac:(vm_compute; reflexivity)
              ltac:(vm_compute; reflexivity))
    as (A & B & _).
  split; [exact Hs|]. split; [rewrite A; reflexivity|rewrite B; reflexivity].
Defined.

(** The invariant that ties the metrics together. *)
Definition metrics_consistent (m : Metrics) : Prop :=
  total_bytes m <= message_count m * peak_size m.

Lemma track_consistent cfg cap m b :
  (N.of_nat (message_count m) + N.of_nat 1 < usize_modulus)%N ->
  (N.of_nat (total_bytes m) + N.of_nat b < usize_modulus)%N ->
  metrics_consistent m -> metrics_consistent (fst (track cfg cap m b)).
Proof.
  unfold metrics_consistent, track; intros N1 N2 H.
  destruct (enable_metrics cfg); [|exact H].
  destruct (Nat.ltb cap b); cbn [fst inc_resize record_line message_count total_bytes peak_size];
    rewrite !wrapping_add_small by assumption; nia.
Qed.

Lemma raw_loop_consistent cfg input : forall cap m,
  (N.of_nat (message_count m + List.length input) < usize_modulus)%N ->
  (N.of_nat (total_bytes m + list_sum (map line_bytes input)) < usize_modulus)%N ->
  metrics_consistent m -> metrics_consistent (snd (read_raw_loop cfg cap m input)).
Proof.
  induction input as [|[c|e] rest IH]; intros cap m Nc Nt H; simpl; auto.
  cbn [List.length map list_sum fold_right line_bytes] in Nc, Nt.
  destruct (Nat.eqb (String.length c) 0); [exact H|].
  destruct (Nat.ltb (max_message_size cfg) (String.length c)); [exact H|].
  pose proof (track_consistent cfg cap m (String.length c)
                ltac:(lia) ltac:(lia) H) as H1.
  assert (K : message_count (fst (track cfg cap m (String.length c))) <= message_count m + 1 /\
              total_bytes (fst (track cfg cap m (String.length c))) <=
                total_bytes m + String.length c).
  { unfold track. destruct (enable_metrics cfg); [|cbn; lia].
    destruct (Nat.ltb cap (String.length c));
      cbn [fst inc_resize record_line message_count total_bytes];
      rewrite !wrapping_add_small by lia; lia. }
  destruct (track cfg cap m (String.length c)) as [m' cap']. simpl in H1, K.
  unfold list_sum in *.
  destruct (Str.is_empty (Str.trim c)); [apply IH; [lia|lia|exact H1]|].
  specialize (IH cap' m' ltac:(lia) ltac:(lia) H1).
  destruct (read_raw_loop cfg cap' m' rest); exact IH.
Qed.

Lemma average_le_peak m :
  metrics_consistent m -> average_message_size m <= peak_size m.
Proof.
  unfold metrics_consistent, average_message_size; intros H.
  destruct (Nat.eqb_spec (message_count m) 0); [lia|].
  apply Nat.Div0.div_le_upper_bound; lia.
Qed.

(** Metrics that start consistent ([total_bytes] at most [message_count]
    times [peak_size], as after [reset_buffer_metrics]) stay so through
    any read with [read_messages] or [read_raw_messages] in which the
    [usize] counters [message_count] and [total_bytes] do not wrap; so the
    [average_message_size] of a snapshot never exceeds its [peak_size]. *)
Theorem average_message_size_le_peak V (f : string -> option V) t input :
  stdout t = Some input ->
  metrics_consistent (buffer_metrics t) ->
  (N.of_nat (message_count (buffer_metrics t) + List.length input) < usize_modulus)%N ->
  (N.of_nat (total_bytes (buffer_metrics t) + list_sum (map line_bytes input))
     < usize_modulus)%N ->
  let m1 := buffer_metrics (snd (read_raw_messages t)) in
  let m2 := buffer_metrics (snd (read_messages f t)) in
  metrics_consistent m1 /\ average_message_size m1 <= peak_size m1 /\
  metrics_consistent m2 /\ average_message_size m2 <= peak_size m2.
Proof.
  intros Hs H Nc Nt m1 m2.
  assert (C : metrics_consistent m1).
  { subst m1. unfold read_raw_messages. rewrite Hs.
    pose proof (raw_loop_consistent (buffer_config t) input
                  (initial_size (buffer_config t)) (buffer_metrics t) Nc Nt H) as R.
    destruct (read_raw_loop _ _ _ _). exact R. }
  assert (E : m2 = m1).
  { subst m1 m2. rewrite (proj2 (read_messages_raw V f t)). reflexivity. }
  rewrite E. repeat split; auto; apply average_le_peak; exact C.
Qed.

(** Witness: from fresh metrics, reading [two_lines_transport] gives an
    average of 4 bytes under a peak of 5. *)
Lemma average_message_size_le_peak_witness :
  metrics_consistent (buffer_metrics two_lines_transport) /\
  average_message_size (buffer_metrics (snd (read_raw_messages two_lines_transport))) = 4 /\
  average_message_size (buffer_metrics (snd (read_raw_messages two_lines_transport))) <=
    peak_size (buffer_metrics (snd (read_raw_messages two_lines_transport))).
Proof.
  assert (H : metrics_consistent (buffer_metrics two_lines_transport))
    by (unfold metrics_consistent; cbn; lia).
  assert (Hs : stdout two_lines_transport =
               Some [ReadOk ("{bad" ++ nl)%string; ReadOk ("{}" ++ nl)%string]) by reflexivity.
  split; [exact H|]. split; [vm_compute; reflexivity|].
  exact (proj1 (proj2 (average_message_size_le_peak _ Parser.parse_json two_lines_transport _
                         Hs H ltac:(vm_compute; reflexivity) ltac:(vm_compute; reflexivity)))).
Defined.

Lemma raw_loop_read_error cfg e rest pre : forall cap m,
  Forall (passes cfg) pre ->
  read_raw_loop cfg cap m (pre ++ ReadErr e :: rest) =
  (fst (read_raw_loop cfg cap m pre) ++ [Err (Transport ("Failed to read line: " ++ e))],
   snd (read_raw_loop cfg cap m pre)).
Proof.
  induction pre as [|ev pre IH]; intros cap m Hp; simpl; [reflexivity|].
  inversion Hp as [|ev' pre' Hev Hpre]; subst.
  destruct ev as [c|e']; [|contradiction]. simpl in Hev.
  replace (Nat.eqb (String.length c) 0) with false by (symmetry; apply Nat.eqb_neq; lia).
  replace (Nat.ltb (max_message_size cfg) (String.length c)) with false
    by (symmetry; apply Nat.ltb_ge; lia).
  destruct (track cfg cap m (String.length c)) as [m' cap'].
  destruct (Str.is_empty (Str.trim c)); [apply IH; exact Hpre|].
  rewrite (IH cap' m' Hpre). destruct (read_raw_loop cfg cap' m' pre); reflexivity.
Qed.

(** An I/O error of [read_line] ends the stream: after the items of the
    lines read before it, [read_raw_messages] yields one transport error
    ["Failed to read line: ..."] and nothing more (later lines are never
    read), and the error adds nothing to the metrics; [read_messages] ends
    the same way after the decoded items. *)
Theorem read_error_ends_stream V (f : string -> option V) t pre e rest :
  stdout t = Some (pre ++ ReadErr e :: rest) ->
  Forall (passes (buffer_config t)) pre ->
  let cfg := buffer_config t in
  let r := read_raw_loop cfg (initial_size cfg) (buffer_metrics t) pre in
  fst (read_raw_messages t) = fst r ++ [Err (Transport ("Failed to read line: " ++ e))] /\
  buffer_metrics (snd (read_raw_messages t)) = snd r /\
  fst (read_messages f t) =
    map (decode_item f) (fst r) ++ [Err (Transport ("Failed to read line: " ++ e))].
Proof.
  intros Hs Hp cfg r.
  assert (R : fst (read_raw_messages t) =
                fst r ++ [Err (Transport ("Failed to read line: " ++ e))] /\
              buffer_metrics (snd (read_raw_messages t)) = snd r).
  { unfold read_raw_messages. rewrite Hs.
    rewrite (raw_loop_read_error _ e rest pre _ _ Hp). subst r. cbn.
    destruct (read_raw_loop _ _ _ pre); split; reflexivity. }
  destruct R as [R1 R2]. split; [exact R1|]. split; [exact R2|].
  rewrite (proj1 (read_messages_raw V f t)), R1, map_app. reflexivity.
Qed.

(** Witness: [read_error_transport] yields [{}], then the read error; the
    line after the error is never read. *)
Lemma read_error_ends_stream_witness :
  fst (read_messages Parser.parse_json read_error_transport) =
    [Ok (Parser.JObj []); Err (Transport "Failed to read line: connection reset")].
Proof.
  assert (Hs : stdout read_error_transport =
               Some ([ReadOk ("{}" ++ nl)%string] ++
                     ReadErr "connection reset" :: [ReadOk ("{}" ++ nl)%string])) by reflexivity.
  assert (Hp : Forall (passes (buffer_config read_error_transport)) [ReadOk ("{}" ++ nl)%string])
    by (constructor; [cbn; lia|constructor]).
  destruct (read_error_ends_stream _ Parser.parse_json read_error_transport _ _ _ Hs Hp)
    as (_ & _ & C).
  rewrite C. vm_compute. reflexivity.
Defined.

End ReaderExtra.

Module PoolExtra.
Import Errors Reader Pool PoolFacts Scenarios.

(** Ids of the workers the pool holds or has killed. *)
Definition ids (p : Pool) : list nat :=
  map id (chan p) ++ map id (guards p) ++ killed p.
Local Open Scope list_scope.

Definition cnt (l : list nat) (i : nat) : nat := count_occ Nat.eq_dec l i.
Definition ind (a i : nat) : nat := if Nat.eq_dec a i then 1 else 0.
Definition fresh (lo hi i : nat) : nat := if Nat.ltb lo i && Nat.leb i hi then 1 else 0.

Ltac ids_unfold :=
  unfold ids, cnt, ind in *; cbn in *;
  repeat rewrite ?map_app, ?count_occ_app in *; cbn in *.

Lemma drop_worker_cnt w p i :
  cnt (ids (drop_worker w p)) i <= cnt (ids p) i + ind (id w) i /\
  next_worker_id (drop_worker w p) = next_worker_id p.
Proof.
  unfold drop_worker. destruct (pid w); [|unfold ind; split; [lia|reflexivity]].
  unfold set_killed. ids_unfold. destruct (Nat.eq_dec (id w) i); split; lia.
Qed.

Lemma try_send_cnt w p i :
  cnt (ids (try_send w p)) i <= cnt (ids p) i + ind (id w) i /\
  next_worker_id (try_send w p) = next_worker_id p.
Proof.
  unfold try_send. destruct (Nat.ltb _ _); [|apply drop_worker_cnt].
  unfold set_chan. ids_unfold. destruct (Nat.eq_dec (id w) i); split; lia.
Qed.

Lemma recycle_cnt p i :
  let (p2, r) := recycle p in
  next_worker_id p2 = next_worker_id p /\
  match r with
  | Some w => cnt (ids p2) i + ind (id w) i = cnt (ids p) i
  | None => cnt (ids p2) i <= cnt (ids p) i
  end.
Proof.
  unfold recycle. destruct (chan p) as [|w rest] eqn:Hc; [split; auto|].
  assert (E : cnt (ids (set_chan p rest)) i + ind (id w) i = cnt (ids p) i).
  { unfold set_chan. ids_unfold. rewrite Hc. cbn.
    destruct (Nat.eq_dec (id w) i); lia. }
  destruct (is_healthy w && _).
  - split; [reflexivity|exact E].
  - destruct (drop_worker_cnt w (set_chan p rest) i) as [D N].
    split; [rewrite N; reflexivity|lia].
Qed.

Lemma add_guard_cnt p w i :
  cnt (ids (set_guards p (guards p ++ [w]))) i = cnt (ids p) i + ind (id w) i.
Proof. unfold set_guards. ids_unfold. destruct (Nat.eq_dec (id w) i); lia. Qed.

Lemma create_worker_ids b p :
  ids (fst (create_worker b p)) = ids p /\
  next_worker_id (fst (create_worker b p)) = S (next_worker_id p) /\
  (forall w, snd (create_worker b p) = Ok w -> id w = S (next_worker_id p)).
Proof.
  unfold create_worker; destruct b; cbn; repeat split; auto.
  - intros w H; inversion H; reflexivity.
  - intros w H; discriminate.
Qed.

Definition op_ok (p q : Pool) : Prop :=
  next_worker_id p <= next_worker_id q /\
  forall i, cnt (ids q) i <= cnt (ids p) i + fresh (next_worker_id p) (next_worker_id q) i.

Ltac fresh_lia :=
  unfold fresh, ind in *;
  repeat match goal with
  | |- context [Nat.ltb ?a ?b] => destruct (Nat.ltb_spec a b)
  | |- context [Nat.leb ?a ?b] => destruct (Nat.leb_spec a b)
  | H : context [Nat.ltb ?a ?b] |- _ => destruct (Nat.ltb_spec a b)
  | H : context [Nat.leb ?a ?b] |- _ => destruct (Nat.leb_spec a b)
  | |- context [Nat.eq_dec ?a ?b] => destruct (Nat.eq_dec a b)
  | H : context [Nat.eq_dec ?a ?b] |- _ => destruct (Nat.eq_dec a b)
  end; cbn in *; lia.

Lemma op_ok_refl p q : next_worker_id q = next_worker_id p ->
  (forall i, cnt (ids q) i <= cnt (ids p) i) -> op_ok p q.
Proof. intros N H; split; [lia|intros i; specialize (H i); lia]. Qed.

Lemma op_ok_trans p q r : op_ok p q -> op_ok q r -> op_ok p r.
Proof.
  intros [N1 H1] [N2 H2]; split; [lia|].
  intros i; specialize (H1 i); specialize (H2 i). fresh_lia.
Qed.

Lemma create_worker_ok b p :
  let (p1, r) := create_worker b p in
  match r with
  | Ok w => op_ok p (set_guards p1 (guards p1 ++ [w])) /\ id w = S (next_worker_id p)
  | Err _ => op_ok p p1
  end.
Proof.
  destruct (create_worker_ids b p) as (I & N & W).
  destruct (create_worker b p) as [p1 [w|e]]; cbn in *.
  - specialize (W w eq_refl). split; [|exact W].
    split; [unfold set_guards; cbn; lia|].
    intros i. rewrite add_guard_cnt, I. unfold set_guards; cbn. rewrite N, W. fresh_lia.
  - split; [lia|]. intros i. rewrite I. lia.
Qed.

Lemma acquire_ok b p : op_ok p (fst (acquire b p)).
Proof.
  unfold acquire. destruct (permits p) as [|k]; [apply op_ok_refl; auto|].
  pose proof (fun i => recycle_cnt (set_permits p k) i) as R.
  destruct (recycle (set_permits p k)) as [p2 [w|]] eqn:E.
  - cbn. apply op_ok_refl.
    + unfold set_guards; cbn. destruct (R 0) as [N _]. exact N.
    + intros i. rewrite add_guard_cnt. destruct (R i) as [_ C]. unfold set_permits in C.
      ids_unfold. lia.
  - assert (O : op_ok p p2).
    { apply op_ok_refl; [destruct (R 0) as [N _]; exact N|].
      intros i. destruct (R i) as [_ C]. unfold set_permits in C. ids_unfold. lia. }
    pose proof (create_worker_ok b p2) as C.
    destruct (create_worker b p2) as [p3 [w|e]]; cbn.
    + destruct C as [C _]. eapply op_ok_trans; [exact O|exact C].
    + eapply op_ok_trans; [exact O|]. eapply op_ok_trans; [exact C|].
      apply op_ok_refl; [reflexivity|]. intros i. unfold set_permits. ids_unfold. lia.
Qed.

Lemma remove_nth_cnt l n w i :
  nth_error l n = Some w ->
  cnt (map id (remove_nth n l)) i + ind (id w) i = cnt (map id l) i.
Proof.
  revert l; induction n as [|n IH]; intros [|x l] H; cbn in *; try discriminate.
  - inversion H; subst. unfold cnt, ind. cbn. destruct (Nat.eq_dec (id w) i); lia.
  - specialize (IH l H). unfold cnt, ind in *. cbn.
    destruct (Nat.eq_dec (id x) i); lia.
Qed.

Lemma drop_guard_ok n p : op_ok p (drop_guard n p).
Proof.
  unfold drop_guard. destruct (nth_error (guards p) n) as [w|] eqn:Hn;
    [|apply op_ok_refl; auto].
  apply op_ok_refl.
  - unfold set_permits; cbn.
    destruct (try_send_cnt w (set_guards p (remove_nth n (guards p))) 0) as [_ N].
    rewrite N. reflexivity.
  - intros i. destruct (try_send_cnt w (set_guards p (remove_nth n (guards p))) i) as [C _].
    pose proof (remove_nth_cnt (guards p) n w i Hn) as R.
    change (ids (set_permits (try_send w (set_guards p (remove_nth n (guards p)))) (S (permits (try_send w (set_guards p (remove_nth n (guards p)))))))) with (ids (try_send w (set_guards p (remove_nth n (guards p))))).
    assert (G : cnt (ids (set_guards p (remove_nth n (guards p)))) i + ind (id w) i = cnt (ids p) i).
    { unfold ids, set_guards, cnt in *. cbn.
      rewrite !count_occ_app. rewrite !count_occ_app in *. lia. }
    lia.
Qed.

Lemma map_id_update_nth n c l :
  map id (update_nth n (touch c) l) = map id l.
Proof.
  revert l; induction n as [|n IH]; intros [|x l]; cbn; auto. rewrite IH; reflexivity.
Qed.

Lemma initialize_loop_ok k b p : op_ok p (fst (initialize_loop k b p)).
Proof.
  revert p; induction k as [|k IH]; intros p; cbn; [apply op_ok_refl; auto|].
  destruct (create_worker_ids b p) as (I & N & W).
  destruct (create_worker b p) as [p1 [w|e]] eqn:E; cbn in *.
  - specialize (W w eq_refl). eapply op_ok_trans; [|apply IH].
    destruct (try_send_cnt w p1 0) as [_ N2]. split; [rewrite N2, N; lia|].
    intros i. destruct (try_send_cnt w p1 i) as [C _]. rewrite I in C.
    rewrite N2, N, <- W. fresh_lia.
  - split; [lia|]. intros i. rewrite I. lia.
Qed.

Lemma step_ok p q : step p q -> op_ok p q.
Proof.
  intros Hs; destruct Hs as [b p|n p|n p|b p|d p].
  - apply acquire_ok.
  - apply drop_guard_ok.
  - apply op_ok_refl; [reflexivity|]. intros i.
    assert (E : ids (guard_io n p) = ids p).
    { unfold guard_io, set_guards, ids; cbn [chan guards killed].
      rewrite map_id_update_nth; reflexivity. }
    rewrite E; lia.
  - apply initialize_loop_ok.
  - apply op_ok_refl; [reflexivity|]. intros i. exact (le_n _).
Qed.

Definition ids_inv (p : Pool) : Prop :=
  (forall i, cnt (ids p) i <= 1) /\
  (forall i, 0 < cnt (ids p) i -> 1 <= i <= next_worker_id p).

Lemma op_ok_inv p q : op_ok p q -> ids_inv p -> ids_inv q.
Proof.
  intros [N H] [U B]. split.
  - intros i. specialize (H i). specialize (U i).
    destruct (Nat.leb_spec i (next_worker_id p)).
    + unfold fresh in H. destruct (Nat.ltb_spec (next_worker_id p) i); [lia|]. cbn in H. lia.
    + assert (cnt (ids p) i = 0) by (destruct (cnt (ids p) i) eqn:Z; [reflexivity|];
        specialize (B i); lia).
      unfold fresh in H. destruct (Nat.ltb _ _), (Nat.leb _ _); cbn in H; lia.
  - intros i Hi. specialize (H i). specialize (B i).
    destruct (cnt (ids p) i) eqn:Z.
    + unfold fresh in H. destruct (Nat.ltb_spec (next_worker_id p) i),
        (Nat.leb_spec i (next_worker_id q)); cbn in H; lia.
    + lia.
Qed.

Lemma reachable_ids cfg p : reachable cfg p -> ids_inv p.
Proof.
  induction 1 as [|p q Hr IH Hs].
  - split; intros i; cbn; lia.
  - exact (op_ok_inv p q (step_ok p q Hs) IH).
Qed.

(** In every reachable pool in which the [usize] worker-id counter has
    not wrapped around (at most [usize::MAX] ids issued, so [*guard += 1]
    never overflowed and the ids below are the code's), the workers held
    (waiting in the return channel or lent out through a guard) have
    pairwise distinct ids, each between 1 and the last id issued
    ([next_worker_id]); the ids of killed workers are distinct too, and no
    held worker carries the id of a killed one: a worker whose process was
    killed is never handed out or kept again. *)
Theorem worker_ids_unique cfg p :
  reachable cfg p ->
  (N.of_nat (next_worker_id p) < usize_modulus)%N ->
  NoDup (map id (chan p ++ guards p)) /\
  NoDup (killed p) /\
  (forall w, In w (chan p ++ guards p) ->
     1 <= id w <= next_worker_id p /\ ~ In (id w) (killed p)).
Proof.
  intros Hr _. destruct (reachable_ids cfg p Hr) as [U B].
  assert (S : forall i, cnt (map id (chan p ++ guards p)) i + cnt (killed p) i = cnt (ids p) i).
  { intros i. unfold ids, cnt. rewrite !map_app, !count_occ_app. lia. }
  split; [|split].
  - apply (NoDup_count_occ Nat.eq_dec). intros i. specialize (S i). specialize (U i).
    unfold cnt in *. lia.
  - apply (NoDup_count_occ Nat.eq_dec). intros i. specialize (S i). specialize (U i).
    unfold cnt in *. lia.
  - intros w Hw.
    assert (P : 0 < cnt (map id (chan p ++ guards p)) (id w)).
    { unfold cnt. apply (count_occ_In Nat.eq_dec). apply in_map. exact Hw. }
    split.
    + apply B. specialize (S (id w)). lia.
    + intros K. assert (0 < cnt (killed p) (id w))
        by (unfold cnt; apply (count_occ_In Nat.eq_dec); exact K).
      specialize (S (id w)). specialize (U (id w)). lia.
Qed.

(** Witness: [demo_pool] lends out worker 1 and holds no other. *)
Lemma worker_ids_unique_witness :
  reachable demo_cfg demo_pool /\
  map id (chan demo_pool ++ guards demo_pool) = [1] /\
  NoDup (map id (chan demo_pool ++ guards demo_pool)).
Proof.
  split; [exact PoolTheorems.demo_pool_reachable|]. split; [vm_compute; reflexivity|].
  exact (proj1 (worker_ids_unique demo_cfg demo_pool PoolTheorems.demo_pool_reachable
                  ltac:(vm_compute; reflexivity))).
Defined.

Lemma try_send_chan w p :
  List.length (chan p) <= max_size (config p) ->
  List.length (chan (try_send w p)) <= max_size (config p) /\ config (try_send w p) = config p.
Proof.
  unfold try_send. destruct (Nat.ltb_spec (List.length (chan p)) (max_size (config p))).
  - unfold set_chan; cbn. rewrite length_app; cbn. split; [lia|reflexivity].
  - intros H0. unfold drop_worker. destruct (pid w); cbn; auto.
Qed.

Definition chan_ok (p : Pool) : Prop := List.length (chan p) <= max_size (config p).

Lemma drop_worker_chan w p : chan (drop_worker w p) = chan p /\ config (drop_worker w p) = config p.
Proof. unfold drop_worker; destruct (pid w); cbn; auto. Qed.

Lemma create_worker_chan b p :
  chan (fst (create_worker b p)) = chan p /\ config (fst (create_worker b p)) = config p.
Proof. unfold create_worker; destruct b; cbn; auto. Qed.

Lemma initialize_loop_chan k b p : chan_ok p -> chan_ok (fst (initialize_loop k b p)).
Proof.
  revert p; induction k as [|k IH]; intros p H; cbn; auto.
  destruct (create_worker_chan b p) as [C1 C2].
  destruct (create_worker b p) as [p1 [w|e]]; cbn in *.
  - apply IH. unfold chan_ok. destruct (try_send_chan w p1) as [T1 T2].
    + unfold chan_ok in H. rewrite C1, C2. exact H.
    + rewrite T2. exact T1.
  - unfold chan_ok in *. rewrite C1, C2. exact H.
Qed.

Lemma step_chan p q : chan_ok p -> step p q -> chan_ok q.
Proof.
  intros H Hs; destruct Hs as [b p|n p|n p|b p|d p]; unfold chan_ok in *.
  - unfold acquire. destruct (permits p) as [|k]; [exact H|].
    unfold recycle, set_permits at 1. cbn.
    destruct (chan p) as [|w rest] eqn:Hc.
    + destruct (create_worker_chan b (set_permits p k)) as [C1 C2].
      destruct (create_worker b (set_permits p k)) as [p3 [w|e]]; cbn in *;
        unfold set_guards, set_permits in *; cbn in *; rewrite ?C1, ?C2, ?Hc; cbn; lia.
    + cbn in H. destruct (is_healthy w && _); cbn.
      * lia.
      * destruct (drop_worker_chan w (set_chan (set_permits p k) rest)) as [D1 D2].
        destruct (create_worker_chan b (drop_worker w (set_chan (set_permits p k) rest)))
          as [C1 C2].
        destruct (create_worker b _) as [p3 [w'|e]]; cbn in *;
          unfold set_guards, set_permits in *; cbn in *;
          rewrite ?C1, ?C2, ?D1, ?D2; cbn; lia.
  - unfold drop_guard. destruct (nth_error (guards p) n) as [w|]; [|exact H].
    destruct (try_send_chan w (set_guards p (remove_nth n (guards p)))) as [T1 T2];
      [exact H|].
    unfold set_permits; cbn [chan config]. rewrite T2. exact T1.
  - exact H.
  - apply (initialize_loop_chan (min_size (config p)) b p H).
  - exact H.
Qed.

Lemma reachable_chan_ok cfg p : reachable cfg p -> chan_ok p.
Proof.
  induction 1 as [|p q Hr IH Hs]; [unfold chan_ok; cbn; lia|].
  exact (step_chan p q IH Hs).
Qed.

(** In every reachable pool the return channel holds at most [max_size]
    idle workers.  A guard dropped while the channel is full does not
    queue its worker: the channel stays as it was and the worker is
    dropped, its process killed when it still has one. *)
Theorem return_channel_bounded cfg p :
  reachable cfg p ->
  List.length (chan p) <= max_size cfg /\
  (forall n w, nth_error (guards p) n = Some w ->
     List.length (chan p) = max_size cfg ->
     chan (drop_guard n p) = chan p /\
     killed (drop_guard n p) =
       match pid w with Some _ => id w :: killed p | None => killed p end).
Proof.
  intros Hr. destruct (reachable_inv cfg p Hr) as [[Hc _] _].
  pose proof (reachable_chan_ok cfg p Hr) as C.
  unfold chan_ok in C. rewrite Hc in C.
  split; [exact C|].
  intros n w Hn Hf. unfold drop_guard. rewrite Hn.
  unfold try_send. cbn [chan config set_guards].
  rewrite Hc, Hf, Nat.ltb_irrefl.
  unfold drop_worker. destruct (pid w); cbn; split; reflexivity.
Qed.

Lemma demo_initialized_reachable : reachable demo_cfg demo_initialized.
Proof. eapply ReachStep; [apply ReachNew|apply StepInit]. Qed.

(** Witness: after [initialize], worker 1 waits in the channel of
    [demo_cfg], whose capacity is 2. *)
Lemma return_channel_bounded_witness :
  reachable demo_cfg demo_initialized /\
  List.length (chan demo_initialized) = 1 /\
  List.length (chan demo_initialized) <= max_size demo_cfg.
Proof.
  split; [exact demo_initialized_reachable|]. split; [vm_compute; reflexivity|].
  exact (proj1 (return_channel_bounded demo_cfg demo_initialized demo_initialized_reachable)).
Defined.

Lemma initialize_loop_counts k p :
  List.length (chan p) <= max_size (config p) ->
  let (q, r) := initialize_loop k true p in
  r = Ok tt /\
  List.length (chan q) = Nat.min (List.length (chan p) + k) (max_size (config p)) /\
  List.length (killed q) = List.length (killed p) + (List.length (chan p) + k - max_size (config p)) /\
  total_created (state q) = total_created (state p) + k /\
  next_worker_id q = next_worker_id p + k /\
  guards q = guards p /\ permits q = permits p /\ config q = config p.
Proof.
  revert p; induction k as [|k IH]; intros p H; cbn.
  - repeat split; lia.
  - set (p1 := set_state (set_next_id p (S (next_worker_id p))) _).
    set (w := {| id := S (next_worker_id p); last_activity := clock p; healthy := true;
                 pid := Some (S (next_worker_id p)) |}).
    assert (T : List.length (chan (try_send w p1)) =
                  Nat.min (List.length (chan p) + 1) (max_size (config p)) /\
                List.length (killed (try_send w p1)) =
                  List.length (killed p) + (List.length (chan p) + 1 - max_size (config p)) /\
                total_created (state (try_send w p1)) = S (total_created (state p)) /\
                next_worker_id (try_send w p1) = S (next_worker_id p) /\
                guards (try_send w p1) = guards p /\ permits (try_send w p1) = permits p /\
                config (try_send w p1) = config p).
    { unfold try_send.
      change (chan p1) with (chan p). change (config p1) with (config p).
      destruct (Nat.ltb_spec (List.length (chan p)) (max_size (config p))).
      - unfold set_chan, p1; cbn [chan killed state config guards permits next_worker_id
          set_state set_next_id total_created].
        rewrite length_app; cbn. repeat split; lia.
      - unfold drop_worker, w, set_killed, p1; cbn. repeat split; lia. }
    destruct T as (T1 & T2 & T3 & T4 & T5 & T6 & T7).
    specialize (IH (try_send w p1)). rewrite T7 in IH.
    destruct (initialize_loop k true (try_send w p1)) as [q r].
    destruct IH as (A & B & C & D & E & F & G & I); [rewrite T1; lia|].
    rewrite T1 in B. rewrite T1, T2 in C. rewrite T3 in D. rewrite T4 in E.
    rewrite T5 in F. rewrite T6 in G.
    repeat split; auto; lia.
Qed.

(** [initialize] on a new pool ([ConnectionPool::new] needs
    [max_size > 0] for its channel) with spawning succeeding creates
    [min_size] workers (ids 1 to [min_size], counted in [total_created]);
    the channel keeps [min (min_size, max_size)] of them and, when
    [min_size] exceeds [max_size], the surplus [min_size - max_size]
    workers are dropped at once and their processes killed.  No guard is
    lent out and no permit is taken. *)
Theorem initialize_fresh_pool cfg :
  0 < max_size cfg ->
  let (q, r) := initialize true (new cfg) in
  r = Ok tt /\
  List.length (chan q) = Nat.min (min_size cfg) (max_size cfg) /\
  List.length (killed q) = min_size cfg - max_size cfg /\
  total_created (state q) = min_size cfg /\
  next_worker_id q = min_size cfg /\
  guards q = [] /\ permits q = max_size cfg.
Proof.
  intros _.
  unfold initialize. change (min_size (config (new cfg))) with (min_size cfg).
  pose proof (initialize_loop_counts (min_size cfg) (new cfg)) as H.
  cbn in H. destruct (initialize_loop (min_size cfg) true (new cfg)) as [q r].
  destruct H as (A & B & C & D & E & F & G & _); [lia|].
  repeat split; auto; lia.
Qed.

(** Witness: with three workers asked for and room for two, one is
    killed at once. *)
Lemma initialize_fresh_pool_witness :
  0 < max_size overfull_cfg /\
  let (q, r) := initialize true (new overfull_cfg) in
  r = Ok tt /\ List.length (chan q) = 2 /\ List.length (killed q) = 1.
Proof.
  assert (H : 0 < max_size overfull_cfg) by (cbn; lia).
  split; [exact H|].
  pose proof (initialize_fresh_pool overfull_cfg H) as W.
  destruct (initialize true (new overfull_cfg)) as [q r].
  destruct W as (A & B & C & _). rewrite B, C. split; [exact A|split; reflexivity].
Defined.



End PoolExtra.

Module StdinExtra.
Import Errors Reader Stdin.

(** Whether the child's stdin is still held: directly, or in the shared
    cell the transport keeps. *)
Definition pipe_open (s : StdinState) : bool :=
  stdin s || match stdin_arc s with Some i => cell_has s i | None => false end.

Definition stdin_inv (s : StdinState) : Prop :=
  (stdin s = true -> stdin_arc s = None) /\ eof s = negb (pipe_open s).

Lemma set_nth_false i l :
  match nth_error (set_nth i false l) i with Some b => b | None => false end = false.
Proof. revert l; induction i as [|i IH]; intros [|x l]; cbn; auto. Qed.

Lemma cell_has_closed s i :
  cell_has (with_eof (with_cells s (set_nth i false (cells s))) true) i = false.
Proof. unfold cell_has; cbn. apply set_nth_false. Qed.

Lemma cell_has_appended s :
  cell_has (fst (take_stdin_arc (with_stdin s true))) (List.length (cells s)) = true.
Proof.
  unfold take_stdin_arc, cell_has; cbn.
  rewrite nth_error_app2 by lia. rewrite Nat.sub_diag. reflexivity.
Qed.

Lemma inv_ext s s' :
  stdin s' = stdin s -> stdin_arc s' = stdin_arc s -> cells s' = cells s ->
  eof s' = eof s -> stdin_inv s -> stdin_inv s'.
Proof.
  unfold stdin_inv, pipe_open, cell_has. intros A B C D. rewrite A, B, C, D. auto.
Qed.

Lemma write_fields d s :
  let s' := fst (write d s) in
  stdin s' = stdin s /\ stdin_arc s' = stdin_arc s /\ cells s' = cells s /\
  eof s' = eof s /\ broken s' = broken s /\ proc s' = proc s /\ tready s' = tready s.
Proof.
  destruct s as [a ar cs r e b p t]. unfold write, pipe_write, cell_has; cbn.
  destruct a, ar as [i|], b, (Str.is_empty d);
    try destruct (match nth_error cs i with Some b => b | None => false end);
    cbn; repeat split; auto.
Qed.

(** A transport whose stdin is no longer held refuses writes. *)
Lemma write_closed d s :
  pipe_open s = false -> write d s = (s, Err (Transport "stdin not available")).
Proof.
  unfold pipe_open, write. destruct (stdin s); [discriminate|]. cbn.
  destruct (stdin_arc s) as [i|]; [|reflexivity].
  intros H; rewrite H; reflexivity.
Qed.

Lemma write_open d s :
  pipe_open s = true -> write d s = pipe_write d s.
Proof.
  unfold pipe_open, write. destruct (stdin s); [reflexivity|]. cbn.
  destruct (stdin_arc s) as [i|]; [|discriminate].
  intros H; rewrite H; reflexivity.
Qed.

Lemma end_input_closed s :
  pipe_open s = false -> end_input s = (s, Ok tt).
Proof.
  unfold pipe_open, end_input. destruct (stdin s); [discriminate|]. cbn.
  destruct (stdin_arc s) as [i|]; [|reflexivity].
  intros H; rewrite H; reflexivity.
Qed.

Lemma close_closed s :
  pipe_open s = false -> proc s = None -> close s = (with_ready s false, Ok tt).
Proof.
  unfold pipe_open, close. destruct (stdin s); [discriminate|]. cbn.
  destruct (stdin_arc s) as [i|]; cbn; intros H P.
  - rewrite H, P. reflexivity.
  - rewrite P. reflexivity.
Qed.

(** What [end_input] and the first half of [close] leave: stdin no longer
    held, [eof] set, the rest untouched. *)
Lemma end_input_shape s :
  stdin_inv s ->
  let s' := fst (end_input s) in
  snd (end_input s) = Ok tt /\
  stdin s' = false /\ pipe_open s' = false /\ eof s' = true /\
  stdin_arc s' = stdin_arc s /\ received s' = received s /\ broken s' = broken s /\
  proc s' = proc s /\ tready s' = tready s.
Proof.
  intros [I E]. destruct s as [a ar cs r e b p t].
  unfold stdin_inv, end_input, pipe_open, cell_has in *; cbn in *.
  destruct a.
  - rewrite (I eq_refl). cbn. repeat split; auto.
  - destruct ar as [i|]; cbn in *.
    + destruct (nth_error cs i) as [[|]|] eqn:Hc; cbn in *;
        repeat split; auto; first [apply set_nth_false | rewrite Hc; reflexivity].
    + repeat split; auto.
Qed.

Lemma close_shape s :
  stdin_inv s ->
  close s =
  (let s2 := fst (end_input s) in
   match proc s2 with
   | None => (with_ready s2 false, Ok tt)
   | Some o =>
       let s3 := with_proc s2 None in
       match o with
       | WaitFailed => (s3, Err (ProcessErr "Failed to wait for process"))
       | Exited true => (with_ready s3 false, Ok tt)
       | Exited false => (s3, Err (ProcessErr "Claude CLI exited with non-zero status"))
       end
   end).
Proof.
  intros [I E]. destruct s as [a ar cs r e b p t].
  unfold stdin_inv, close, end_input in *; cbn in *.
  destruct a; [rewrite (I eq_refl); reflexivity|].
  destruct ar as [i|]; [|reflexivity].
  unfold cell_has; cbn. destruct (nth_error cs i) as [[|]|]; reflexivity.
Qed.

Lemma op_inv s s' : stdin_inv s -> op s s' -> stdin_inv s'.
Proof.
  intros H Hop; destruct Hop as [d s|s|s|s|s].
  - destruct (write_fields d s) as (A & B & C & D & _).
    exact (inv_ext s _ A B C D H).
  - unfold take_stdin_arc. destruct (stdin s) eqn:Hs; [|exact H].
    destruct H as [_ E]. split; [discriminate|].
    pose proof (cell_has_appended s) as C.
    unfold take_stdin_arc in C; cbn in C.
    unfold pipe_open in *. cbn. rewrite C. rewrite Hs in E. cbn in *. rewrite E. reflexivity.
  - destruct (end_input_shape s H) as (_ & A & B & C & _).
    split; [congruence|]. rewrite B, C. reflexivity.
  - rewrite (close_shape s H). cbv zeta.
    destruct (end_input_shape s H) as (_ & A & B & C & _).
    set (s2 := fst (end_input s)) in *.
    assert (K : forall s', stdin s' = stdin s2 -> stdin_arc s' = stdin_arc s2 ->
                 cells s' = cells s2 -> eof s' = eof s2 -> stdin_inv s').
    { intros s' P Q R T. unfold stdin_inv, pipe_open, cell_has in *.
      rewrite P, Q, R, T. split; [congruence|]. rewrite C.
      unfold pipe_open, cell_has in B. rewrite B. reflexivity. }
    destruct (proc s2) as [[|[|]]|]; cbn; apply K; reflexivity.
  - apply (inv_ext s); auto.
Qed.

Lemma reachable_stdin_inv s : reachable s -> stdin_inv s.
Proof.
  induction 1 as [o|s s' _ IH Hop].
  - split; [reflexivity|reflexivity].
  - exact (op_inv s s' IH Hop).
Qed.

(** In every state a connected transport can reach (writes, [take_stdin_arc],
    [end_input], [close] and the child closing its end, in any order),
    [write] succeeds exactly while stdin is open and the child still reads:
    with [eof] set (after [end_input] or [close]) it fails with
    "stdin not available" and changes nothing; otherwise, on an intact
    pipe, the child receives the data followed by a newline; on a pipe the
    child has closed it fails and changes nothing. *)
Theorem write_outcome s d :
  reachable s ->
  (eof s = true -> write d s = (s, Err (Transport "stdin not available"))) /\
  (eof s = false -> broken s = false ->
     write d s = (with_received s (received s ++ d ++ lf), Ok tt)) /\
  (eof s = false -> broken s = true ->
     fst (write d s) = s /\ exists e, snd (write d s) = Err e).
Proof.
  intros Hr. destruct (reachable_stdin_inv s Hr) as [_ E].
  split; [|split].
  - intros H. apply write_closed. rewrite H in E. destruct (pipe_open s); [discriminate|reflexivity].
  - intros H B. rewrite write_open by (rewrite H in E; destruct (pipe_open s); [reflexivity|discriminate]).
    unfold pipe_write. rewrite B. reflexivity.
  - intros H B. rewrite write_open by (rewrite H in E; destruct (pipe_open s); [reflexivity|discriminate]).
    unfold pipe_write. rewrite B. destruct (Str.is_empty d); cbn; split; eauto.
Qed.

(** Witness: after [end_input] on a freshly connected transport a write
    is refused. *)
Lemma write_outcome_witness :
  reachable (fst (end_input (connected (Exited true)))) /\
  write "hi" (fst (end_input (connected (Exited true)))) =
    (fst (end_input (connected (Exited true))), Err (Transport "stdin not available")).
Proof.
  assert (R : reachable (fst (end_input (connected (Exited true)))))
    by (eapply ReachOp; [apply ReachConnected|apply OpEnd]).
  split; [exact R|].
  exact (proj1 (write_outcome _ "hi" R) eq_refl).
Defined.

(** [take_stdin_arc] does not change what [write] does: the shared cell
    now holding stdin receives the same bytes and reports the same result
    as the direct stdin would have.  Taking again returns the same handle
    and changes nothing, and a handle is returned unless stdin was neither
    held directly nor already shared. *)
Theorem take_stdin_arc_keeps_writes s d :
  let (s1, h) := take_stdin_arc s in
  take_stdin_arc s1 = (s1, h) /\
  snd (write d s1) = snd (write d s) /\
  received (fst (write d s1)) = received (fst (write d s)) /\
  eof s1 = eof s /\
  (h = None <-> stdin s = false /\ stdin_arc s = None).
Proof.
  unfold take_stdin_arc at 1. destruct (stdin s) eqn:Hs.
  - pose proof (cell_has_appended s) as C. unfold take_stdin_arc in C; cbn in C.
    assert (W : write d {| stdin := false; stdin_arc := Some (List.length (cells s));
                          cells := cells s ++ [true]; received := received s; eof := eof s;
                          broken := broken s; proc := proc s; tready := tready s |} =
                pipe_write d {| stdin := false; stdin_arc := Some (List.length (cells s));
                          cells := cells s ++ [true]; received := received s; eof := eof s;
                          broken := broken s; proc := proc s; tready := tready s |}).
    { unfold write; cbn. rewrite C. reflexivity. }
    rewrite W. unfold write. rewrite Hs. unfold pipe_write; cbn.
    destruct (broken s), (Str.is_empty d); cbn; repeat split; try reflexivity;
      try discriminate; intros [H _]; discriminate.
  - unfold take_stdin_arc; rewrite Hs. split; [reflexivity|]. intuition.
Qed.

(** [end_input] closes the child's stdin for good: on every reachable
    transport it returns [Ok], sets [eof], leaves the output received
    so far, the process and [ready] alone; afterwards every [write] fails
    with "stdin not available", and a second [end_input] is a no-op. *)
Theorem end_input_closes_for_good s :
  reachable s ->
  let (s1, r) := end_input s in
  r = Ok tt /\ eof s1 = true /\
  received s1 = received s /\ proc s1 = proc s /\ tready s1 = tready s /\
  (forall d, write d s1 = (s1, Err (Transport "stdin not available"))) /\
  end_input s1 = (s1, Ok tt).
Proof.
  intros Hr. pose proof (end_input_shape s (reachable_stdin_inv s Hr)) as H.
  destruct (end_input s) as [s1 r]. cbn in H.
  destruct H as (R & _ & B & C & _ & D & _ & F & G).
  repeat split; auto.
  - intros d; apply write_closed; exact B.
  - apply end_input_closed; exact B.
Qed.

(** Witness: in shared mode, [end_input] empties the cell and sets [eof]. *)
Lemma end_input_closes_for_good_witness :
  reachable (fst (take_stdin_arc (connected (Exited true)))) /\
  snd (end_input (fst (take_stdin_arc (connected (Exited true))))) = Ok tt /\
  eof (fst (end_input (fst (take_stdin_arc (connected (Exited true)))))) = true.
Proof.
  assert (R : reachable (fst (take_stdin_arc (connected (Exited true)))))
    by (eapply ReachOp; [apply ReachConnected|apply OpTake]).
  split; [exact R|].
  pose proof (end_input_closes_for_good _ R) as W.
  destruct (end_input (fst (take_stdin_arc (connected (Exited true))))) as [s1 r].
  destruct W as (A & B & _). split; [exact A|exact B].
Defined.

(** [close] on a reachable transport closes stdin and reaps the child.
    Its result follows the wait: [Ok] with [ready] cleared when there is no
    process or it exited successfully; the "Failed to wait" or "non-zero
    status" [Process] error otherwise, [ready] then left as it was.  In
    every case the process is gone and stdin closed, so writes fail, and
    a second [close] returns [Ok] and clears [ready]. *)
Theorem close_outcome s :
  reachable s ->
  let (s1, r) := close s in
  r = match proc s with
      | None | Some (Exited true) => Ok tt
      | Some WaitFailed => Err (ProcessErr "Failed to wait for process")
      | Some (Exited false) => Err (ProcessErr "Claude CLI exited with non-zero status")
      end /\
  tready s1 = match r with Ok _ => false | Err _ => tready s end /\
  proc s1 = None /\ eof s1 = true /\
  (forall d, write d s1 = (s1, Err (Transport "stdin not available"))) /\
  close s1 = (with_ready s1 false, Ok tt).
Proof.
  intros Hr. pose proof (reachable_stdin_inv s Hr) as I.
  rewrite (close_shape s I). cbv zeta.
  destruct (end_input_shape s I) as (_ & A & B & C & _ & _ & _ & P & T).
  set (s2 := fst (end_input s)) in *. rewrite <- P, <- T.
  assert (Cl : forall s', pipe_open s' = pipe_open s2 -> proc s' = None ->
                 close s' = (with_ready s' false, Ok tt)).
  { intros s' Q R. apply close_closed; [rewrite Q; exact B|exact R]. }
  assert (Wr : forall s' d, pipe_open s' = pipe_open s2 ->
                 write d s' = (s', Err (Transport "stdin not available"))).
  { intros s' d Q. apply write_closed. rewrite Q; exact B. }
  destruct (proc s2) as [[|[|]]|] eqn:Hp; cbn;
    (repeat split; [..|intros d; apply Wr; reflexivity
                     |apply Cl; [reflexivity|first [reflexivity|exact Hp]]]);
    try reflexivity; try exact C; try exact Hp.
Qed.

(** Witness: a child that exits with a failure status makes the first
    [close] fail; the second succeeds. *)
Lemma close_outcome_witness :
  reachable (connected (Exited false)) /\
  snd (close (connected (Exited false))) =
    Err (ProcessErr "Claude CLI exited with non-zero status") /\
  close (fst (close (connected (Exited false)))) =
    (with_ready (fst (close (connected (Exited false)))) false, Ok tt).
Proof.
  assert (R : reachable (connected (Exited false))) by apply ReachConnected.
  split; [exact R|].
  pose proof (close_outcome _ R) as W.
  destruct (close (connected (Exited false))) as [s1 r].
  destruct W as (A & _ & _ & _ & _ & F). split; [exact A|exact F].
Defined.

End StdinExtra.

Module FindCliExtra.
Import Errors Reader Connect FindCli.

(** [find_cli] never reports a path it has not checked: a success is the
    bare name [claude] (only when [claude --version] ran successfully) or
    a path that exists and is a regular file; a failure is always the
    [CliNotFound] error. *)
Theorem find_cli_checked_result pr fs :
  match snd (find_cli pr fs) with
  | Ok p => (claude_version_ok pr = true /\ p = "claude") \/
            (claude_version_ok pr = false /\ exists_file fs p = true)
  | Err e => e = not_found_error
  end.
Proof.
  unfold find_cli. destruct (claude_version_ok pr); [left; auto|].
  destruct (which_output pr) as [out|].
  - cbv zeta. destruct (exists_file fs (Str.trim out)) eqn:W; [cbn; right; auto|].
    destruct (find (exists_file fs) (common_paths pr)) as [p|] eqn:F.
    + cbn. right. split; [reflexivity|]. apply (find_some _ _ F).
    + destruct (cli_path_var pr) as [p|]; [|reflexivity].
      destruct (exists_file fs p) eqn:X; cbn; auto.
  - cbv zeta. destruct (find (exists_file fs) (common_paths pr)) as [p|] eqn:F.
    + cbn. right. split; [reflexivity|]. apply (find_some _ _ F).
    + destruct (cli_path_var pr) as [p|]; [|reflexivity].
      destruct (exists_file fs p) eqn:X; cbn; auto.
Qed.

(** [CLAUDE_CLI_PATH] is the last resort: the search ends the same way
    whatever its value, unless every other strategy fails; then it decides,
    succeeding exactly when it names an existing file. *)
Theorem cli_path_var_last_resort pr fs v :
  find_cli (with_cli_path_var pr v) fs =
  match find_cli (with_cli_path_var pr None) fs with
  | (ev, Err _) =>
      match v with
      | Some p => if exists_file fs p then (ev, Ok p) else (ev, Err not_found_error)
      | None => (ev, Err not_found_error)
      end
  | r => r
  end.
Proof.
  unfold find_cli.
  change (claude_version_ok (with_cli_path_var pr v)) with (claude_version_ok pr).
  change (claude_version_ok (with_cli_path_var pr None)) with (claude_version_ok pr).
  change (which_output (with_cli_path_var pr v)) with (which_output pr).
  change (which_output (with_cli_path_var pr None)) with (which_output pr).
  change (common_paths (with_cli_path_var pr v)) with (common_paths pr).
  change (common_paths (with_cli_path_var pr None)) with (common_paths pr).
  change (cli_path_var (with_cli_path_var pr v)) with v.
  change (cli_path_var (with_cli_path_var pr None)) with (@None string).
  destruct (claude_version_ok pr); [reflexivity|].
  cbv zeta.
  destruct (which_output pr) as [out|];
    [destruct (exists_file fs (Str.trim out)); [reflexivity|]|];
    destruct (find (exists_file fs) (common_paths pr)); reflexivity.
Qed.

End FindCliExtra.

Module GlobalPoolExtra.
Import Errors Reader Pool GlobalPool Scenarios.





End GlobalPoolExtra.

Module ErrorsExtra.
Import Errors ErrorsDisplay.

(** [error_code] without its three-digit serial number. *)
Definition code_prefix (c : string) : string :=
  substring 0 (String.length c - 3) c.

(** The three decimal digits of a status code below 1000. *)
Definition digit (n : nat) : Ascii.ascii := Ascii.ascii_of_nat (48 + n).
Definition three_digits (n : nat) : string :=
  String (digit (n / 100)) (String (digit (n / 10 mod 10)) (String (digit (n mod 10)) EmptyString)).

(** An error is retryable exactly when it maps to a gateway status, 502
    [BadGateway] or 503 [ServiceUnavailable]: these are the connection,
    process and transport errors. *)
Theorem retryable_iff_gateway_status e :
  is_retryable e = true <->
  (http_status e = BadGateway \/ http_status e = ServiceUnavailable).
Proof. destruct e; cbn; intuition discriminate. Qed.

(** What the classification never produces: no error has the
    [Permission] or [External] category, and the only HTTP statuses used
    are 400, 404, 422, 500, 502 and 503 (never 401, 403, 408, 409, 429 or
    504). *)
Theorem classification_range e :
  category e <> Permission /\ category e <> External /\
  In (code (http_status e)) [400; 404; 422; 500; 502; 503].
Proof. destruct e; cbn; repeat split; try discriminate; tauto. Qed.

(** The letters of an error code name its category: two errors' codes
    share the part before the three-digit serial (ENET, EPROC, EPARSE,
    ECFG, EVAL, ERES, EINT) exactly when their categories are equal. *)
Theorem code_prefix_names_category e1 e2 :
  code_prefix (error_code e1) = code_prefix (error_code e2) <->
  category e1 = category e2.
Proof. destruct e1, e2; cbn; split; intro H; first [reflexivity | discriminate]. Qed.

(** The displayed forms identify their values: [HttpStatus::code] is
    injective and the [Display] text of a status starts with its
    three-digit code followed by a space; the [Display] texts of the
    categories are pairwise distinct. *)
Theorem display_identifies s1 s2 c1 c2 :
  (code s1 = code s2 -> s1 = s2) /\
  prefix (three_digits (code s1) ++ " ") (status_display s1) = true /\
  (category_display c1 = category_display c2 -> c1 = c2).
Proof.
  split; [|split].
  - destruct s1, s2; cbn; intro H; first [reflexivity | discriminate].
  - destruct s1; vm_compute; reflexivity.
  - destruct c1, c2; cbn; intro H; first [reflexivity | discriminate].
Qed.

End ErrorsExtra.

Module ChildEnvExtra.
Import ChildEnv.

Lemma find_filter_other (k k' : string) (m : EnvMap) :
  k <> k' ->
  find (fun e => String.eqb (fst e) k') (filter (fun e => negb (String.eqb (fst e) k)) m) =
  find (fun e => String.eqb (fst e) k') m.
Proof.
  intros N. induction m as [|[a v] m IH]; cbn; [reflexivity|].
  destruct (String.eqb_spec a k) as [->|Hk]; cbn.
  - destruct (String.eqb_spec k k') as [E|_]; [contradiction|exact IH].
  - destruct (String.eqb a k'); [reflexivity|exact IH].
Qed.

Lemma env_get_insert k v m k' :
  env_get (env_insert k v m) k' = if String.eqb k k' then Some v else env_get m k'.
Proof.
  unfold env_get, env_insert. cbn.
  destruct (String.eqb_spec k k') as [->|N]; [reflexivity|].
  rewrite find_filter_other by exact N. reflexivity.
Qed.

(** The child's environment is the user's [options.env] with the SDK's
    variables forced: [CLAUDE_CODE_ENTRYPOINT] and
    [CLAUDE_AGENT_SDK_VERSION] always carry the SDK's values (a user value
    is overridden), [CLAUDE_CODE_ENABLE_SDK_FILE_CHECKPOINTING] is "true"
    when checkpointing is enabled and the user's value otherwise, and
    every other variable passes through unchanged.  Pooled workers get the
    same environment without the checkpointing variable. *)
Theorem child_env_lookup ENTRYPOINT SDK_VERSION env b k :
  env_get (build_env ENTRYPOINT SDK_VERSION env b) k =
    (if String.eqb k "CLAUDE_CODE_ENABLE_SDK_FILE_CHECKPOINTING" && b then Some "true"
     else if String.eqb k "CLAUDE_AGENT_SDK_VERSION" then Some SDK_VERSION
     else if String.eqb k "CLAUDE_CODE_ENTRYPOINT" then Some ENTRYPOINT
     else env_get env k) /\
  env_get (spawn_env ENTRYPOINT SDK_VERSION env) k =
    (if String.eqb k "CLAUDE_AGENT_SDK_VERSION" then Some SDK_VERSION
     else if String.eqb k "CLAUDE_CODE_ENTRYPOINT" then Some ENTRYPOINT
     else env_get env k).
Proof.
  unfold build_env, spawn_env.
  assert (T : forall a, String.eqb a k = String.eqb k a).
  { intros a. destruct (String.eqb_spec a k), (String.eqb_spec k a); congruence. }
  split.
  - destruct b; rewrite ?env_get_insert, ?T, ?Bool.andb_true_r, ?Bool.andb_false_r;
      reflexivity.
  - rewrite !env_get_insert, !T. reflexivity.
Qed.

End ChildEnvExtra.

Module ConnectExtra.
Import Errors Reader Connect Scenarios.

(** A transport built by [new] is not yet ready; its working directory is
    the configured one, else the process's current directory; with an
    explicit [cli_path] no process is started (no CLI search) and that
    path is used as given. *)
Theorem new_builds_unready_transport env fs o ev t :
  new env fs o = (ev, Ok t) ->
  ready t = false /\
  cwd t = match opt_cwd o with Some c => Some c | None => current_dir env end /\
  (forall p, opt_cli_path o = Some p -> ev = [] /\ cli_path t = p).
Proof.
  unfold new. intros H.
  destruct (match opt_cwd o with Some c => _ | None => None end) as [e|]; [discriminate|].
  destruct (opt_cli_path o) as [p|] eqn:Hp.
  - inversion H; subst. split; [reflexivity|split; [reflexivity|]].
    intros p' E; inversion E; subst; split; reflexivity.
  - destruct (find_cli env) as [ev0 [cli|e]]; [|discriminate].
    inversion H; subst. split; [reflexivity|split; [reflexivity|]].
    intros p' E; discriminate.
Qed.

(** Witness: [opts_work] names the CLI and the working directory; [new]
    starts no process and keeps both. *)
Lemma new_builds_unready_transport_witness :
  exists ev t, new env0 fs_with_work opts_work = (ev, Ok t) /\
    ev = [] /\ cli_path t = "/usr/bin/claude" /\ ready t = false.
Proof.
  exists [], {| cli_path := "/usr/bin/claude"; cwd := Some "/work"; ready := false |}.
  assert (H : new env0 fs_with_work opts_work =
              ([], Ok {| cli_path := "/usr/bin/claude"; cwd := Some "/work"; ready := false |}))
    by reflexivity.
  split; [exact H|].
  destruct (new_builds_unready_transport _ _ _ _ _ H) as (A & _ & C).
  destruct (C "/usr/bin/claude" eq_refl) as [C1 C2].
  split; [exact C1|]. split; [exact C2|exact A].
Defined.

End ConnectExtra.
